(** * BasePackager: deterministic tar.gz packaging of chaincode sources

    A shallow embedding of [src/client/patch/BasePackager.js] and of the
    parts of the Node runtime it drives ([path], [fs], [klaw],
    [tar-stream], stream events and promises), followed by the properties
    of the packager that hold on it. *)

From Stdlib Require Import ZArith Ascii Strings.Byte.
From stdpp Require Import base list strings gmap.

Local Open Scope Z_scope.

(** ** JavaScript values, exceptions and promises *)

Inductive JsError :=
| TypeError (msg : string)
| Error (msg : string)
| SystemError (code : string) (path : string).

(** The outcome of evaluating an expression that may throw. *)
Inductive Completion (A : Type) :=
| Return (a : A)
| Throw (e : JsError).
Arguments Return {A} a.
Arguments Throw {A} e.

(** A promise settles once: later calls of [resolve] or [reject] are
    ignored. *)
Inductive Promise (A : Type) :=
| Pending
| Resolved (a : A)
| Rejected (e : JsError).
Arguments Pending {A}.
Arguments Resolved {A} a.
Arguments Rejected {A} e.

Definition resolve {A} (a : A) (p : Promise A) : Promise A :=
  match p with
  | Pending => Resolved a
  | _ => p
  end.

Definition reject {A} (e : JsError) (p : Promise A) : Promise A :=
  match p with
  | Pending => Rejected e
  | _ => p
  end.

Definition Buffer := list byte.

(** An octal literal, most significant digit first: [0o644] is
    [octal [6; 4; 4]]. *)
Definition octal (digits : list Z) : Z :=
  fold_left (fun acc d => 8 * acc + d) digits 0.

Inductive JsValue :=
| JUndefined
| JNull
| JNumber (n : Z)
| JString (s : string)
| JBuffer (b : Buffer).

(** [ToBoolean] of the language: every object, an empty Buffer included,
    is truthy. *)
Definition ToBoolean (v : JsValue) : bool :=
  match v with
  | JUndefined | JNull => false
  | JNumber n => negb (n =? 0)
  | JString s => negb (String.eqb s "")
  | JBuffer _ => true
  end.

(** Reading a data property of a Buffer.  A Buffer carries its byte count
    as [length] and [byteLength]; any other name that is not defined on it
    reads as [undefined]. *)
Definition buffer_get (b : Buffer) (prop : string) : JsValue :=
  if String.eqb prop "length" then JNumber (Z.of_nat (length b))
  else if String.eqb prop "byteLength" then JNumber (Z.of_nat (length b))
  else JUndefined.

(** [Array.prototype.indexOf] on an array of strings: the first index
    holding a strictly equal element, or [-1]. *)
Fixpoint indexOf_from (i : Z) (l : list string) (x : string) : Z :=
  match l with
  | [] => -1
  | y :: l' => if String.eqb y x then i else indexOf_from (i + 1) l' x
  end.

Definition indexOf (l : list string) (x : string) : Z := indexOf_from 0 l x.

(** [String.prototype.split] with a one-character separator and
    [Array.prototype.join]. *)
Fixpoint split_on (isSep : ascii -> bool) (s : string) : list string :=
  match s with
  | EmptyString => [EmptyString]
  | String c s' =>
      if isSep c then EmptyString :: split_on isSep s'
      else match split_on isSep s' with
           | [] => [String c EmptyString]
           | seg :: segs => String c seg :: segs
           end
  end.

Fixpoint join_with (sep : string) (l : list string) : string :=
  match l with
  | [] => EmptyString
  | [x] => x
  | x :: l' => x +:+ sep +:+ join_with sep l'
  end.

Definition split (s : string) (sep : ascii) : list string :=
  split_on (Ascii.eqb sep) s.

(** [String.prototype.slice] for [0 <= from]. *)
Definition slice (s : string) (from to : Z) : string :=
  String.substring (Z.to_nat from) (Z.to_nat (to - from)) s.

(** ** The [path] module of Node *)

Module path.

Inductive Platform := posix | win32.

Definition sep (pf : Platform) : ascii :=
  match pf with
  | posix => "/"%char
  | win32 => "\"%char
  end.

Definition isPathSeparator (pf : Platform) (c : ascii) : bool :=
  match pf with
  | posix => Ascii.eqb c "/"
  | win32 => Ascii.eqb c "/" || Ascii.eqb c "\"
  end.

Definition isWindowsDeviceRoot (c : ascii) : bool :=
  let n := Z.of_nat (nat_of_ascii c) in
  ((65 <=? n) && (n <=? 90)) || ((97 <=? n) && (n <=? 122)).

(** The scan of [extname], from the last character down to [start]. *)
Record ExtScan := {
  startDot : Z;
  startPart : Z;
  end_ : Z;
  matchedSlash : bool;
  preDotState : Z
}.

Definition sawEnd (i : Z) (st : ExtScan) : ExtScan :=
  if end_ st =? -1
  then {| startDot := startDot st; startPart := startPart st;
          end_ := i + 1; matchedSlash := false;
          preDotState := preDotState st |}
  else st.

Definition sawDot (i : Z) (st : ExtScan) : ExtScan :=
  if startDot st =? -1
  then {| startDot := i; startPart := startPart st; end_ := end_ st;
          matchedSlash := matchedSlash st; preDotState := preDotState st |}
  else if negb (preDotState st =? 1)
  then {| startDot := startDot st; startPart := startPart st;
          end_ := end_ st; matchedSlash := matchedSlash st;
          preDotState := 1 |}
  else st.

Definition sawOther (st : ExtScan) : ExtScan :=
  if negb (startDot st =? -1)
  then {| startDot := startDot st; startPart := startPart st;
          end_ := end_ st; matchedSlash := matchedSlash st;
          preDotState := -1 |}
  else st.

Fixpoint extname_scan (pf : Platform) (codes : list ascii) (i : Z)
    (st : ExtScan) : ExtScan :=
  match codes with
  | [] => st
  | code :: rest =>
      if isPathSeparator pf code then
        if negb (matchedSlash st)
        then {| startDot := startDot st; startPart := i + 1;
                end_ := end_ st; matchedSlash := matchedSlash st;
                preDotState := preDotState st |}
        else extname_scan pf rest (i - 1) st
      else
        let st1 := sawEnd i st in
        let st2 := if Ascii.eqb code "." then sawDot i st1 else sawOther st1 in
        extname_scan pf rest (i - 1) st2
  end.

Definition drivePrefix (pf : Platform) (p : string) : nat :=
  match pf, p with
  | win32, String c0 (String c1 _) =>
      if Ascii.eqb c1 ":" && isWindowsDeviceRoot c0 then 2%nat else 0%nat
  | _, _ => 0%nat
  end.

Definition extname (pf : Platform) (p : string) : string :=
  let start := drivePrefix pf p in
  let codes := rev (drop start (String.list_ascii_of_string p)) in
  let st := extname_scan pf codes (Z.of_nat (String.length p) - 1)
              {| startDot := -1; startPart := Z.of_nat start; end_ := -1;
                 matchedSlash := true; preDotState := 0 |} in
  if (startDot st =? -1) || (end_ st =? -1) || (preDotState st =? 0)
     || ((preDotState st =? 1) && (startDot st =? end_ st - 1)
         && (startDot st =? startPart st + 1))
  then EmptyString
  else slice p (startDot st) (end_ st).

(** Path segments: the pieces between separators, empty pieces dropped. *)
Definition nonEmpty (s : string) : bool := negb (String.eqb s "").

Definition segments (pf : Platform) (p : string) : list string :=
  List.filter nonEmpty (split_on (isPathSeparator pf) p).

(** [normalizeString]: resolves [.] and [..] segments; [res] holds the
    segments kept so far, last one first. *)
Fixpoint normalizeString (allowAboveRoot : bool) (res : list string)
    (segs : list string) : list string :=
  match segs with
  | [] => rev res
  | s :: rest =>
      if String.eqb s "." then normalizeString allowAboveRoot res rest
      else if String.eqb s ".." then
        match res with
        | top :: res' =>
            if String.eqb top ".."
            then normalizeString allowAboveRoot (s :: res) rest
            else normalizeString allowAboveRoot res' rest
        | [] =>
            if allowAboveRoot
            then normalizeString allowAboveRoot [s] rest
            else normalizeString allowAboveRoot [] rest
        end
      else normalizeString allowAboveRoot (s :: res) rest
  end.

Fixpoint dropChars (n : nat) (s : string) : string :=
  match n, s with
  | O, _ => s
  | S n', String _ s' => dropChars n' s'
  | S _, EmptyString => EmptyString
  end.

Fixpoint takeChars (n : nat) (s : string) : string :=
  match n, s with
  | O, _ => EmptyString
  | S n', String c s' => String c (takeChars n' s')
  | S _, EmptyString => EmptyString
  end.

Definition startsWithSep (pf : Platform) (s : string) : bool :=
  match s with
  | String c _ => isPathSeparator pf c
  | EmptyString => false
  end.

Fixpoint endsWithSep (pf : Platform) (s : string) : bool :=
  match s with
  | EmptyString => false
  | String c EmptyString => isPathSeparator pf c
  | String _ s' => endsWithSep pf s'
  end.

Definition sepString (pf : Platform) : string := String (sep pf) EmptyString.

(** [normalize], written once for both flavours: the drive prefix (win32
    only) is set aside, the rest is normalised segment by segment and
    joined by the platform separator.  UNC roots are not modelled. *)
Definition normalize (pf : Platform) (p : string) : string :=
  if String.eqb p "" then "."
  else
    let rootEnd := drivePrefix pf p in
    let device := takeChars rootEnd p in
    let rest := dropChars rootEnd p in
    let isAbsolute := startsWithSep pf rest in
    let tail := join_with (sepString pf)
                  (normalizeString (negb isAbsolute) [] (segments pf rest)) in
    let tail := if String.eqb tail "" && negb isAbsolute then "." else tail in
    let tail := if nonEmpty tail && endsWithSep pf rest
                then tail +:+ sepString pf else tail in
    device +:+ (if isAbsolute then sepString pf else EmptyString) +:+ tail.

(** [join] of two arguments. *)
Definition join (pf : Platform) (a b : string) : string :=
  let joined :=
    if String.eqb a "" then b
    else if String.eqb b "" then a
    else a +:+ sepString pf +:+ b in
  if String.eqb joined "" then "." else normalize pf joined.

Fixpoint dropCommon (from to : list string) : list string * list string :=
  match from, to with
  | x :: from', y :: to' =>
      if String.eqb x y then dropCommon from' to' else (from, to)
  | _, _ => (from, to)
  end.

(** [String.prototype.toLowerCase] on a drive name. *)
Definition toLower (c : ascii) : ascii :=
  let n := nat_of_ascii c in
  if ((65 <=? n) && (n <=? 90))%nat then ascii_of_nat (n + 32) else c.

Fixpoint toLowerCase (s : string) : string :=
  match s with
  | EmptyString => EmptyString
  | String c s' => String (toLower c) (toLowerCase s')
  end.

(** The drive of a path (win32 only, else empty) and what follows it. *)
Definition device (pf : Platform) (p : string) : string :=
  takeChars (drivePrefix pf p) p.

Definition tail (pf : Platform) (p : string) : string :=
  dropChars (drivePrefix pf p) p.

(** [resolve] of one path against the working directory [cwd], which is
    absolute as [process.cwd()] is.  A path that starts with a separator
    after its drive is absolute and keeps its own segments; one without a
    drive borrows the drive of [cwd]; a relative path is appended to the
    segments of [cwd], or, when it names another drive than [cwd], to the
    root of that drive.  The segments are normalised and joined below the
    drive; an empty path resolves to [cwd].  (The per-drive working
    directories of the win32 environment and UNC roots are not
    modelled.) *)
Definition resolve (pf : Platform) (cwd p : string) : string :=
  let resolvedDevice :=
    if nonEmpty (device pf p) then device pf p else device pf cwd in
  let segs :=
    if startsWithSep pf (tail pf p) then segments pf (tail pf p)
    else if negb (nonEmpty (device pf p))
            || String.eqb (toLowerCase (device pf p))
                 (toLowerCase (device pf cwd))
    then segments pf (tail pf cwd) ++ segments pf (tail pf p)
    else segments pf (tail pf p) in
  resolvedDevice +:+ sepString pf
  +:+ join_with (sepString pf) (normalizeString false [] segs).

(** [relative]: both paths are resolved, the common leading segments are
    dropped, one [..] climbs out of each remaining segment of [from].
    (The case-insensitive comparison of win32 is not modelled.) *)
Definition relative (pf : Platform) (cwd from to : string) : string :=
  if String.eqb from to then EmptyString
  else
    let from' := resolve pf cwd from in
    let to' := resolve pf cwd to in
    if String.eqb from' to' then EmptyString
    else
      let '(up, down) := dropCommon (segments pf from') (segments pf to') in
      join_with (sepString pf) (map (fun _ => "..") up ++ down).

End path.

(** ** The file system as [fs.readFileSync] sees it *)

Module fs.

Record File := {
  content : Buffer;
  readable : bool;
  atimeMs : Z;
  mtimeMs : Z;
  ctimeMs : Z
}.

Abbreviation FileSystem := (gmap string File).

(** Without an encoding the call returns the whole content as a Buffer, or
    throws. *)
Definition readFileSync (disk : FileSystem) (p : string) : Completion Buffer :=
  match disk !! p with
  | None => Throw (SystemError "ENOENT" p)
  | Some f =>
      if readable f then Return (content f)
      else Throw (SystemError "EACCES" p)
  end.

End fs.

(** ** The directory walker [klaw] *)

Module klaw.

#[local] Set Warnings "-register-all".

(** What [lstat] and [readdir] answer below one path.  The children of a
    directory are kept in the order [readdir] lists them. *)
Inductive Node :=
| File
| Special
| Dir (children : list (string * Node))
| DirDenied (e : JsError)
| Gone (e : JsError).

Inductive Stats := StFile | StDirectory | StOther.

Definition isFile (st : Stats) : bool :=
  match st with StFile => true | _ => false end.

Definition isDirectory (st : Stats) : bool :=
  match st with StDirectory => true | _ => false end.

Definition lstat (n : Node) : Completion Stats :=
  match n with
  | File => Return StFile
  | Special => Return StOther
  | Dir _ | DirDenied _ => Return StDirectory
  | Gone e => Throw e
  end.

Record Item := { path : string; stats : Stats }.

Inductive Event :=
| data (item : Item)
| error (e : JsError)
| end_.

Fixpoint size (n : Node) : nat :=
  match n with
  | Dir children =>
      S (list_sum (map (fun c => match c with (_, ch) => size ch end) children))
  | _ => 1%nat
  end.

Definition queueSize (paths : list (string * Node)) : nat :=
  list_sum (map (fun c => size (snd c)) paths).

(** [_read], repeated until the queue of paths is empty: the first path is
    shifted off, its item pushed, and the entries of a directory are
    appended to the queue.  A failed [lstat] emits [error] and pushes
    nothing, which leaves the stream without further events; a failed
    [readdir] pushes the item and emits [error]. *)
Fixpoint read (pf : path.Platform) (fuel : nat)
    (paths : list (string * Node)) : list Event :=
  match fuel with
  | O => []
  | S fuel' =>
      match paths with
      | [] => [end_]
      | (pathItem, n) :: paths' =>
          match lstat n with
          | Throw err => [error err]
          | Return st =>
              let item := {| path := pathItem; stats := st |} in
              match n with
              | Dir children =>
                  let pathItems :=
                    map (fun c => (path.join pf pathItem (fst c), snd c))
                        children in
                  data item :: read pf fuel' (paths' ++ pathItems)
              | DirDenied err =>
                  data item :: error err :: read pf fuel' paths'
              | _ => data item :: read pf fuel' paths'
              end
          end
      end
  end.

(** [klaw(dir)]: the events of the walk, which starts at
    [path.resolve(dir)]; [root] is what the file system holds there. *)
Definition walk (pf : path.Platform) (cwd dir : string) (root : Node)
    : list Event :=
  read pf (S (size root)) [(path.resolve pf cwd dir, root)].

End klaw.

(** ** The tar packer of [tar-stream] and the stream pipeline *)

Module Header.

(** [new Date(ms)] *)
Record Date := { getTime : Z }.

(** The header object [packEntry] builds. *)
Record t := {
  name : string;
  size : JsValue;
  mode : Z;
  atime : Date;
  mtime : Date;
  ctime : Date
}.

End Header.

Module tar.

Inductive EntryType :=
| file | directory | symlink | blockDevice | characterDevice | fifo.

Definition S_IFMT : Z := octal [1; 7; 0; 0; 0; 0].
Definition S_IFREG : Z := octal [1; 0; 0; 0; 0; 0].
Definition S_IFBLK : Z := octal [0; 6; 0; 0; 0; 0].
Definition S_IFCHR : Z := octal [0; 2; 0; 0; 0; 0].
Definition S_IFDIR : Z := octal [0; 4; 0; 0; 0; 0].
Definition S_IFIFO : Z := octal [0; 1; 0; 0; 0; 0].
Definition S_IFLNK : Z := octal [1; 2; 0; 0; 0; 0].
Definition MASK : Z := octal [7; 7; 7; 7].

Definition modeToType (mode : Z) : EntryType :=
  let t := Z.land mode S_IFMT in
  if t =? S_IFBLK then blockDevice
  else if t =? S_IFCHR then characterDevice
  else if t =? S_IFDIR then directory
  else if t =? S_IFIFO then fifo
  else if t =? S_IFLNK then symlink
  else file.

(** The fields that reach the 512-byte header block. *)
Record Encoded := {
  e_name : string;
  e_mode : Z;
  e_uid : Z;
  e_gid : Z;
  e_size : Z;
  e_mtime : Z;
  e_type : EntryType
}.

Record Pack := {
  entries : list (Encoded * Buffer);
  finalized : bool
}.

(** [tar.pack()] *)
Definition pack : Pack := {| entries := []; finalized := false |}.

(** Whether, and with what error, the callback given to [entry] is
    called. *)
Inductive Callback :=
| NotCalled
| Called (err : option JsError).

(** [pack.entry(header, buffer, callback)] with a Buffer body: the header
    is completed ([size] is overwritten with the length of the buffer,
    the type comes from the mode), encoded and pushed with the body.  On a
    finalized pack the call returns at once and the callback is dropped.
    The time is recorded in whole seconds, as written here for the times
    from the epoch up to 2^31 seconds. *)
Definition entry (p : Pack) (header : Header.t) (buffer : Buffer)
    : Pack * Callback :=
  if finalized p then (p, NotCalled)
  else
    let enc := {| e_name := Header.name header;
                  e_mode := Z.land (Header.mode header) MASK;
                  e_uid := 0;
                  e_gid := 0;
                  e_size := Z.of_nat (length buffer);
                  e_mtime := Header.getTime (Header.mtime header) / 1000;
                  e_type := modeToType (Header.mode header) |} in
    ({| entries := entries p ++ [(enc, buffer)]; finalized := false |},
     Called None).

Definition finalize (p : Pack) : Pack :=
  {| entries := entries p; finalized := true |}.

Section Bytes.

(** The encoder of the header block, [headers.encode]. *)
Variable encode : Encoded -> list byte.

(** Zero bytes up to the next multiple of 512. *)
Definition overflow (size : Z) : list byte :=
  let r := Z.land size 511 in
  if r =? 0 then [] else repeat x00 (Z.to_nat (512 - r)).

Definition END_OF_TAR : list byte := repeat x00 1024.

Definition entryBytes (e : Encoded * Buffer) : list byte :=
  encode (fst e) ++ snd e ++ overflow (e_size (fst e)).

(** Everything the pack has pushed downstream. *)
Definition bytes (p : Pack) : list byte :=
  concat (map entryBytes (entries p))
  ++ (if finalized p then END_OF_TAR else []).

End Bytes.

End tar.

(** ** The streams of the pipeline and their events *)

Module stream.

Inductive Stream := packStream | gzipStream | destStream.

Inductive Signal :=
| finish
| error (err : JsError).

Definition eqb (a b : Stream) : bool :=
  match a, b with
  | packStream, packStream | gzipStream, gzipStream
  | destStream, destStream => true
  | _, _ => false
  end.

(** [src.pipe(dst)] returns [dst]; an [error] of [src] is not passed on to
    [dst]. *)
Definition pipe (src dst : Stream) : Stream := dst.

End stream.

(** ** BasePackager *)

Record Descriptor := { name : string; fqp : string }.

Module BasePackager.

(** What the constructor looks at on [this]: whether the class under
    construction is BasePackager itself and whether [package] is
    overridden. *)
Record Class := { isBasePackager : bool; overridesPackage : bool }.

Record t := { keep : option (list string) }.

Definition constructor (cls : Class) (keep : option (list string))
    : Completion t :=
  if isBasePackager cls
  then Throw (TypeError "Can not construct abstract class.")
  else if negb (overridesPackage cls)
  then Throw (TypeError "Please implement method package from child class")
  else Return {| keep := keep |}.

Definition package (chaincodePath metadataPath : string) : Completion unit :=
  Throw (TypeError "Please implement method package from child class").

Definition findSource (filepath : string) : Completion unit :=
  Throw (Error "abstract function called").

Section Host.

Variable pf : path.Platform.

(** [process.cwd()] *)
Variable cwd : string.

Definition isMetadata (filePath : string) : bool :=
  let extensions := [".json"] in
  negb (indexOf extensions (path.extname pf filePath) =? -1).

(** [this.keep.indexOf(...)]: reading [indexOf] off an [undefined] keep
    throws before the argument is looked at. *)
Definition isSource (this : t) (filePath : string) : Completion bool :=
  match keep this with
  | None =>
      Throw (TypeError "Cannot read properties of undefined (reading 'indexOf')")
  | Some keep =>
      Return (negb (indexOf keep (path.extname pf filePath) =? -1))
  end.

Record Collecting := {
  descriptors : list Descriptor;
  settled : Promise (list Descriptor)
}.

Definition descriptorOf (filePath : string) (entry : klaw.Item) : Descriptor :=
  {| name := join_with "/"
               (split (path.join pf "META-INF"
                         (path.relative pf cwd filePath (klaw.path entry)))
                      "\");
     fqp := klaw.path entry |}.

(** The three listeners put on the walker. *)
Definition onEvent (filePath : string) (st : Collecting) (ev : klaw.Event)
    : Collecting :=
  match ev with
  | klaw.data entry =>
      if klaw.isFile (klaw.stats entry) && isMetadata (klaw.path entry)
      then {| descriptors := descriptors st ++ [descriptorOf filePath entry];
              settled := settled st |}
      else st
  | klaw.error err =>
      {| descriptors := descriptors st; settled := reject err (settled st) |}
  | klaw.end_ =>
      {| descriptors := descriptors st;
         settled := resolve (descriptors st) (settled st) |}
  end.

Definition findMetadataDescriptors (filePath : string) (root : klaw.Node)
    : Promise (list Descriptor) :=
  settled (fold_left (onEvent filePath) (klaw.walk pf cwd filePath root)
             {| descriptors := []; settled := Pending |}).

End Host.

Definition zeroTime : Header.Date := {| Header.getTime := 0 |}.

(** The header literal of [packEntry]. *)
Definition entryHeader (desc : Descriptor) (content : Buffer) : Header.t :=
  {| Header.name := name desc;
     Header.size := buffer_get content "size";
     Header.mode := octal [1; 0; 0; 6; 4; 4];
     Header.atime := zeroTime;
     Header.mtime := zeroTime;
     Header.ctime := zeroTime |}.

(** An exception of the read inside the executor rejects the promise. *)
Definition packEntry (disk : fs.FileSystem) (pack : tar.Pack)
    (desc : Descriptor) : tar.Pack * Promise bool :=
  match fs.readFileSync disk (fqp desc) with
  | Throw err => (pack, Rejected err)
  | Return content =>
      if negb (ToBoolean (JBuffer content))
      then (pack, Rejected (Error ("failed to read " +:+ fqp desc)))
      else
        match tar.entry pack (entryHeader desc content) content with
        | (pack', tar.Called (Some err)) => (pack', Rejected err)
        | (pack', tar.Called None) => (pack', Resolved true)
        | (pack', tar.NotCalled) => (pack', Pending)
        end
  end.

(** The [for ... of] loop of [generateTarGz].  A rejected [packEntry] is
    caught, the outer promise is rejected and the loop goes on with the
    next descriptor; an [await] on a promise that never settles stops the
    loop for good ([false]). *)
Fixpoint packAll (disk : fs.FileSystem) (descriptors : list Descriptor)
    (pack : tar.Pack) (promise : Promise bool)
    : tar.Pack * Promise bool * bool :=
  match descriptors with
  | [] => (pack, promise, true)
  | desc :: rest =>
      match packEntry disk pack desc with
      | (pack', Resolved _) => packAll disk rest pack' promise
      | (pack', Rejected err) => packAll disk rest pack' (reject err promise)
      | (pack', Pending) => (pack', promise, false)
      end
  end.

(** The stream the two listeners of [generateTarGz] are put on: the value
    of [pack.pipe(zlib.createGzip()).pipe(dest)]. *)
Definition listened : stream.Stream :=
  stream.pipe (stream.pipe stream.packStream stream.gzipStream)
    stream.destStream.

(** A stream emits a signal.  An [error] without a listener is thrown and
    ends up as an uncaught exception. *)
Definition emit (s : stream.Stream) (sig : stream.Signal)
    (st : Promise bool * list JsError) : Promise bool * list JsError :=
  match sig with
  | stream.finish =>
      if stream.eqb s listened then (resolve true (fst st), snd st) else st
  | stream.error err =>
      if stream.eqb s listened then (reject err (fst st), snd st)
      else (fst st, snd st ++ [err])
  end.

Definition raise (st : Promise bool * list JsError)
    (fault : stream.Stream * JsError) : Promise bool * list JsError :=
  emit (fst fault) (stream.error (snd fault)) st.

Record Outcome := {
  promise : Promise bool;
  packed : tar.Pack;
  uncaught : list JsError;
  destination : option (list byte)
}.

Section Archive.

Variable encode : tar.Encoded -> list byte.

(** The gzip stream as a function of all the bytes it is fed. *)
Variable gzip : list byte -> list byte.

(** [faults] are the errors the streams of the pipeline raise while the
    archive flows, in the order they are raised; they reach the listeners
    once the loop has run.  The destination emits [finish], holding the
    compressed archive, when the pack was finalized and no stream
    failed. *)
Definition generateTarGz (disk : fs.FileSystem) (descriptors : list Descriptor)
    (faults : list (stream.Stream * JsError)) : Outcome :=
  let '(pack1, promise1, looped) := packAll disk descriptors tar.pack Pending in
  let pack2 := if looped then tar.finalize pack1 else pack1 in
  let st := fold_left raise faults (promise1, []) in
  match faults with
  | [] =>
      if tar.finalized pack2
      then
        let st' := emit stream.destStream stream.finish st in
        {| promise := fst st'; packed := pack2; uncaught := snd st';
           destination := Some (gzip (tar.bytes encode pack2)) |}
      else {| promise := fst st; packed := pack2; uncaught := snd st;
              destination := None |}
  | _ =>
      {| promise := fst st; packed := pack2; uncaught := snd st;
         destination := None |}
  end.

End Archive.

End BasePackager.

(** ** Vocabulary of the statements *)

(** An entry of the keep list is an extension, leading dot included. *)
Definition isExtension (e : string) : bool :=
  match e with
  | String c _ => Ascii.eqb c "."
  | EmptyString => false
  end.

(** A name a directory can list: not empty, not [.] or [..], free of
    path separators. *)
Definition sepFree (pf : path.Platform) (s : string) : bool :=
  forallb (fun c => negb (path.isPathSeparator pf c))
    (String.list_ascii_of_string s).

Definition plainSegment (s : string) : bool :=
  negb (String.eqb s ".") && negb (String.eqb s "..").

Definition validName (pf : path.Platform) (s : string) : bool :=
  path.nonEmpty s && plainSegment s && sepFree pf s.

(** The absolute path made of a device (empty, or a drive on win32) and a
    list of segments. *)
Definition render (pf : path.Platform) (device : string) (segs : list string)
    : string :=
  device +:+ path.sepString pf +:+ join_with (path.sepString pf) segs.

(** The device of an absolute path: none, or a drive letter and a colon on
    win32. *)
Definition isDevice (pf : path.Platform) (d : string) : bool :=
  match d with
  | EmptyString => true
  | String c0 (String c1 EmptyString) =>
      match pf with
      | path.win32 => Ascii.eqb c1 ":" && path.isWindowsDeviceRoot c0
      | path.posix => false
      end
  | _ => false
  end.

(** [p] is what [path.resolve] returns: absolute and normalised. *)
Definition isResolved (pf : path.Platform) (p : string) : bool :=
  let rootEnd := path.drivePrefix pf p in
  let segs := path.segments pf (path.dropChars rootEnd p) in
  String.eqb p (render pf (path.takeChars rootEnd p) segs)
  && forallb plainSegment segs.

(** The node below [n] reached through the names [cs]. *)
Fixpoint child (c : string) (children : list (string * klaw.Node))
    : option klaw.Node :=
  match children with
  | [] => None
  | (c', ch) :: rest => if String.eqb c' c then Some ch else child c rest
  end.

Fixpoint lookup (n : klaw.Node) (cs : list string) : option klaw.Node :=
  match cs with
  | [] => Some n
  | c :: cs' =>
      match n with
      | klaw.Dir children =>
          match child c children with
          | Some ch => lookup ch cs'
          | None => None
          end
      | _ => None
      end
  end.

(** No [lstat] or [readdir] fails anywhere in the tree. *)
Fixpoint healthy (n : klaw.Node) : bool :=
  match n with
  | klaw.Dir children =>
      forallb (fun c => match c with (_, ch) => healthy ch end) children
  | klaw.DirDenied _ | klaw.Gone _ => false
  | _ => true
  end.

(** The path the walker gives the entry reached from [dir] through
    [cs]. *)
Definition entryPath (pf : path.Platform) (dir : string) (cs : list string)
    : string :=
  fold_left (path.join pf) cs dir.

(** The descriptors the [data] listener collects from a list of items. *)
Definition collected (pf : path.Platform) (cwd filePath : string)
    (items : list klaw.Item) : list Descriptor :=
  flat_map (fun entry =>
              if klaw.isFile (klaw.stats entry)
                 && BasePackager.isMetadata pf (klaw.path entry)
              then [BasePackager.descriptorOf pf cwd filePath entry]
              else [])
           items.

(** Every backslash of [s] turned into a slash. *)
Fixpoint slashed (s : string) : string :=
  match s with
  | EmptyString => EmptyString
  | String c s' =>
      String (if Ascii.eqb c "\" then "/"%char else c) (slashed s')
  end.

Definition noBackslash (s : string) : bool :=
  forallb (fun c => negb (Ascii.eqb c "\")) (String.list_ascii_of_string s).

(** The content a descriptor stands for, when it can be read. *)
Definition contentOf (disk : fs.FileSystem) (p : string) : option Buffer :=
  match fs.readFileSync disk p with
  | Return content => Some content
  | Throw _ => None
  end.

(** Two descriptor lists over two disks describe the same logical input:
    the same names in the same order, each with the same content. *)
Definition sameLogicalInput (disk1 disk2 : fs.FileSystem)
    (ds1 ds2 : list Descriptor) : Prop :=
  Forall2 (fun d1 d2 =>
             name d1 = name d2
             /\ contentOf disk1 (fqp d1) = contentOf disk2 (fqp d2))
          ds1 ds2.

(** What a successful [packEntry] of [desc] appends to the pack. *)
Definition encodedEntry (desc : Descriptor) (content : Buffer)
    : tar.Encoded * Buffer :=
  ({| tar.e_name := name desc;
      tar.e_mode := octal [6; 4; 4];
      tar.e_uid := 0;
      tar.e_gid := 0;
      tar.e_size := Z.of_nat (length content);
      tar.e_mtime := 0;
      tar.e_type := tar.file |}, content).

(** The entries of the descriptors that can be read, in the order of the
    descriptors. *)
Fixpoint packedEntries (disk : fs.FileSystem) (ds : list Descriptor)
    : list (tar.Encoded * Buffer) :=
  match ds with
  | [] => []
  | d :: ds' =>
      match contentOf disk (fqp d) with
      | Some content => encodedEntry d content :: packedEntries disk ds'
      | None => packedEntries disk ds'
      end
  end.

Definition canRead (disk : fs.FileSystem) (d : Descriptor) : bool :=
  match contentOf disk (fqp d) with
  | Some _ => true
  | None => false
  end.

(** A file of the given bytes, stamped with the given times. *)
Definition fileOf (content : Buffer) (atime mtime ctime : Z) : fs.File :=
  {| fs.content := content; fs.readable := true;
     fs.atimeMs := atime; fs.mtimeMs := mtime; fs.ctimeMs := ctime |}.

(** A working directory as [process.cwd()] returns it: absolute and
    normalised, with its drive on win32. *)
Definition workingDirectory (pf : path.Platform) (cwd : string) : bool :=
  isResolved pf cwd
  && match pf with
     | path.posix => true
     | path.win32 => path.nonEmpty (path.device pf cwd)
     end.

(** A path whose root the model of [resolve] covers.  On win32 a path
    with a drive must go on with a separator (no path relative to the
    working directory of a drive) and one without a drive must not start
    with two separators (no UNC path). *)
Definition ordinaryRoot (pf : path.Platform) (p : string) : bool :=
  match pf with
  | path.posix => true
  | path.win32 =>
      if path.nonEmpty (path.device pf p)
      then path.startsWithSep pf (path.tail pf p)
      else match p with
           | String c0 (String c1 _) =>
               negb (path.isPathSeparator pf c0 && path.isPathSeparator pf c1)
           | _ => true
           end
  end.

(** The part of an extension after its dot: not empty, free of dots and
    of path separators. *)
Definition extensionBody (pf : path.Platform) (e : string) : bool :=
  path.nonEmpty e
  && forallb (fun c => negb (path.isPathSeparator pf c) && negb (Ascii.eqb c "."))
       (String.list_ascii_of_string e).

(** [reaches n cs n']: the names [cs] lead from [n] down to [n'] through
    entries that the directories on the way list. *)
Inductive reaches : klaw.Node -> list string -> klaw.Node -> Prop :=
| reaches_here n : reaches n [] n
| reaches_child children c ch cs n :
    In (c, ch) children -> reaches ch cs n ->
    reaches (klaw.Dir children) (c :: cs) n.

(** * Properties *)

(** ** Classification by extension *)

Lemma indexOf_from_In i l x : 0 <= i ->
  indexOf_from i l x <> -1 <-> In x l.
Proof.
  revert i. induction l as [|y l IH]; intros i Hi; simpl.
  - split; [congruence | tauto].
  - destruct (String.eqb_spec y x) as [->|Hyx].
    + split; [auto | lia].
    + rewrite IH by lia. split; [auto | intros [?|?]; congruence].
Qed.

Lemma indexOf_In l x : negb (indexOf l x =? -1) = true <-> In x l.
Proof.
  unfold indexOf. rewrite <- (indexOf_from_In 0 l x) by lia.
  rewrite negb_true_iff, Z.eqb_neq. tauto.
Qed.

Lemma isExtension_nonempty keep :
  forallb isExtension keep = true -> ~ In EmptyString keep.
Proof.
  rewrite forallb_forall. intros H Hin. apply H in Hin. discriminate.
Qed.

Lemma isMetadata_iff pf p :
  BasePackager.isMetadata pf p = true <-> path.extname pf p = ".json".
Proof.
  unfold BasePackager.isMetadata. rewrite indexOf_In. simpl.
  split; [intros [H|[]]; auto | auto].
Qed.

(** C7: with a keep list of extensions, [isSource] returns whether the
    extension of the path is in the keep list and [isMetadata] whether it
    is exactly [.json]; the comparison is the equality of strings, so a
    different letter case does not match, and a path without extension is
    neither source nor metadata. *)
Theorem classification_by_extension pf (keep : list string) (p : string) :
  forallb isExtension keep = true ->
  (exists b, BasePackager.isSource pf {| BasePackager.keep := Some keep |} p
               = Return b
             /\ (b = true <-> In (path.extname pf p) keep))
  /\ (BasePackager.isMetadata pf p = true <-> path.extname pf p = ".json")
  /\ (path.extname pf p = EmptyString ->
        BasePackager.isSource pf {| BasePackager.keep := Some keep |} p
          = Return false
        /\ BasePackager.isMetadata pf p = false)
  /\ BasePackager.isMetadata pf "descriptor.JSON" = false.
Proof.
  intros Hkeep. split; [|split; [|split]].
  - eexists. split; [reflexivity|]. apply indexOf_In.
  - apply isMetadata_iff.
  - intros Hext. split.
    + unfold BasePackager.isSource. simpl. f_equal.
      apply not_true_is_false. rewrite indexOf_In, Hext.
      by apply isExtension_nonempty.
    + apply not_true_is_false. rewrite isMetadata_iff, Hext. discriminate.
  - by destruct pf.
Qed.

Lemma classification_by_extension_witness :
  (exists b, BasePackager.isSource path.posix
               {| BasePackager.keep := Some [".go"; ".c"; ".h"] |}
               "/src/chaincode.go" = Return b
             /\ (b = true <->
                 In (path.extname path.posix "/src/chaincode.go")
                    [".go"; ".c"; ".h"]))
  /\ (BasePackager.isMetadata path.posix "/src/chaincode.go" = true <->
      path.extname path.posix "/src/chaincode.go" = ".json")
  /\ (path.extname path.posix "/src/chaincode.go" = EmptyString ->
        BasePackager.isSource path.posix
          {| BasePackager.keep := Some [".go"; ".c"; ".h"] |}
          "/src/chaincode.go" = Return false
        /\ BasePackager.isMetadata path.posix "/src/chaincode.go" = false)
  /\ BasePackager.isMetadata path.posix "descriptor.JSON" = false.
Proof.
  apply (classification_by_extension path.posix [".go"; ".c"; ".h"]
           "/src/chaincode.go").
  reflexivity.
Defined.

(** C10: a packager constructed without a keep array has an [undefined]
    keep, and [isSource] on it throws a TypeError instead of returning
    false; with a keep array [isSource] always returns a boolean. *)
Theorem isSource_without_keep_throws pf cls this p :
  BasePackager.constructor cls None = Return this ->
  (exists msg, BasePackager.isSource pf this p = Throw (TypeError msg))
  /\ BasePackager.isSource pf this p <> Return false
  /\ (forall keep, exists b,
        BasePackager.isSource pf {| BasePackager.keep := Some keep |} p
          = Return b).
Proof.
  unfold BasePackager.constructor. intros Hnew.
  destruct (BasePackager.isBasePackager cls); [discriminate|].
  destruct (negb (BasePackager.overridesPackage cls)); [discriminate|].
  injection Hnew as <-. split; [|split].
  - eexists. reflexivity.
  - discriminate.
  - intros keep. eexists. reflexivity.
Qed.

Lemma isSource_without_keep_throws_witness :
  (exists msg,
     BasePackager.isSource path.posix {| BasePackager.keep := None |}
       "/src/chaincode.go" = Throw (TypeError msg))
  /\ BasePackager.isSource path.posix {| BasePackager.keep := None |}
       "/src/chaincode.go" <> Return false
  /\ (forall keep, exists b,
        BasePackager.isSource path.posix
          {| BasePackager.keep := Some keep |} "/src/chaincode.go"
          = Return b).
Proof.
  apply (isSource_without_keep_throws path.posix
           {| BasePackager.isBasePackager := false;
              BasePackager.overridesPackage := true |}).
  reflexivity.
Defined.

(** ** Entries *)

Lemma entry_encodes desc content :
  ({| tar.e_name := Header.name (BasePackager.entryHeader desc content);
      tar.e_mode :=
        Z.land (Header.mode (BasePackager.entryHeader desc content)) tar.MASK;
      tar.e_uid := 0;
      tar.e_gid := 0;
      tar.e_size := Z.of_nat (length content);
      tar.e_mtime :=
        Header.getTime (Header.mtime (BasePackager.entryHeader desc content))
        / 1000;
      tar.e_type :=
        tar.modeToType (Header.mode (BasePackager.entryHeader desc content)) |},
   content)
  = encodedEntry desc content.
Proof. reflexivity. Qed.

(** What [packEntry] does, by the outcome of the read and the state of the
    pack. *)
Lemma packEntry_read_failed disk pack desc err :
  fs.readFileSync disk (fqp desc) = Throw err ->
  BasePackager.packEntry disk pack desc = (pack, Rejected err).
Proof. unfold BasePackager.packEntry. by intros ->. Qed.

Lemma packEntry_read_ok disk pack desc content :
  fs.readFileSync disk (fqp desc) = Return content ->
  tar.finalized pack = false ->
  BasePackager.packEntry disk pack desc
  = ({| tar.entries := tar.entries pack ++ [encodedEntry desc content];
        tar.finalized := false |}, Resolved true).
Proof.
  unfold BasePackager.packEntry, tar.entry. intros -> ->. reflexivity.
Qed.

Lemma packEntry_read_ok_finalized disk pack desc content :
  fs.readFileSync disk (fqp desc) = Return content ->
  tar.finalized pack = true ->
  BasePackager.packEntry disk pack desc = (pack, Pending).
Proof. unfold BasePackager.packEntry, tar.entry. by intros -> ->. Qed.

Lemma packEntry_resolved disk pack desc pack' v :
  BasePackager.packEntry disk pack desc = (pack', Resolved v) ->
  exists content,
    fs.readFileSync disk (fqp desc) = Return content
    /\ tar.finalized pack = false
    /\ v = true
    /\ pack' = {| tar.entries := tar.entries pack ++ [encodedEntry desc content];
                  tar.finalized := false |}.
Proof.
  intros H.
  destruct (fs.readFileSync disk (fqp desc)) as [content|err] eqn:Hread.
  - destruct (tar.finalized pack) eqn:Hfin.
    + rewrite (packEntry_read_ok_finalized _ _ _ _ Hread Hfin) in H.
      discriminate.
    + rewrite (packEntry_read_ok _ _ _ _ Hread Hfin) in H.
      injection H as <- <-. by exists content.
  - rewrite (packEntry_read_failed _ _ _ _ Hread) in H. discriminate.
Qed.

(** C2: the header of every descriptor that [packEntry] packs has mode
    0o100644, that is a regular file with permission bits 0644, which the
    tar entry records as mode 0644 and type file; its three timestamps are
    the epoch. *)
Theorem packEntry_header_mode_and_times disk pack desc pack' :
  BasePackager.packEntry disk pack desc = (pack', Resolved true) ->
  exists content,
    fs.readFileSync disk (fqp desc) = Return content
    /\ tar.entry pack (BasePackager.entryHeader desc content) content
       = (pack', tar.Called None)
    /\ Header.mode (BasePackager.entryHeader desc content)
       = octal [1; 0; 0; 6; 4; 4]
    /\ Z.land (Header.mode (BasePackager.entryHeader desc content)) tar.MASK
       = octal [6; 4; 4]
    /\ Z.land (Header.mode (BasePackager.entryHeader desc content)) tar.S_IFMT
       = tar.S_IFREG
    /\ Header.getTime (Header.atime (BasePackager.entryHeader desc content)) = 0
    /\ Header.getTime (Header.mtime (BasePackager.entryHeader desc content)) = 0
    /\ Header.getTime (Header.ctime (BasePackager.entryHeader desc content)) = 0
    /\ (exists enc, last (tar.entries pack') = Some (enc, content)
                    /\ tar.e_mode enc = octal [6; 4; 4]
                    /\ tar.e_type enc = tar.file
                    /\ tar.e_mtime enc = 0).
Proof.
  intros H. apply packEntry_resolved in H as (content & Hread & Hfin & _ & ->).
  exists content. split; [done|]. split.
  { unfold tar.entry. rewrite Hfin. by rewrite entry_encodes. }
  repeat (split; [reflexivity|]).
  eexists. split; [apply last_snoc|]. by simpl.
Qed.

Lemma packEntry_header_mode_and_times_witness :
  exists content,
    fs.readFileSync {[ "/cc/main.go" := fileOf ["a"; "b"; "c"]%byte 7 8 9 ]}
      "/cc/main.go" = Return content
    /\ tar.entry tar.pack
         (BasePackager.entryHeader
            {| name := "src/main.go"; fqp := "/cc/main.go" |} content) content
       = ({| tar.entries :=
               [encodedEntry {| name := "src/main.go"; fqp := "/cc/main.go" |}
                  ["a"; "b"; "c"]%byte];
             tar.finalized := false |}, tar.Called None)
    /\ Header.mode
         (BasePackager.entryHeader
            {| name := "src/main.go"; fqp := "/cc/main.go" |} content)
       = octal [1; 0; 0; 6; 4; 4]
    /\ Z.land (Header.mode
                 (BasePackager.entryHeader
                    {| name := "src/main.go"; fqp := "/cc/main.go" |} content))
         tar.MASK = octal [6; 4; 4]
    /\ Z.land (Header.mode
                 (BasePackager.entryHeader
                    {| name := "src/main.go"; fqp := "/cc/main.go" |} content))
         tar.S_IFMT = tar.S_IFREG
    /\ Header.getTime
         (Header.atime
            (BasePackager.entryHeader
               {| name := "src/main.go"; fqp := "/cc/main.go" |} content)) = 0
    /\ Header.getTime
         (Header.mtime
            (BasePackager.entryHeader
               {| name := "src/main.go"; fqp := "/cc/main.go" |} content)) = 0
    /\ Header.getTime
         (Header.ctime
            (BasePackager.entryHeader
               {| name := "src/main.go"; fqp := "/cc/main.go" |} content)) = 0
    /\ (exists enc,
          last (tar.entries
                  {| tar.entries :=
                       [encodedEntry
                          {| name := "src/main.go"; fqp := "/cc/main.go" |}
                          ["a"; "b"; "c"]%byte];
                     tar.finalized := false |}) = Some (enc, content)
          /\ tar.e_mode enc = octal [6; 4; 4]
          /\ tar.e_type enc = tar.file
          /\ tar.e_mtime enc = 0).
Proof.
  apply (packEntry_header_mode_and_times
           {[ "/cc/main.go" := fileOf ["a"; "b"; "c"]%byte 7 8 9 ]}
           tar.pack {| name := "src/main.go"; fqp := "/cc/main.go" |}).
  reflexivity.
Defined.

(** C3: for every descriptor that [packEntry] packs, the tar entry
    header that is written records as its size the exact number of bytes
    read from the descriptor's path: whatever the header literal holds in
    its size field, the packer sets the field to the length of the
    content before the header is encoded. *)
Theorem packEntry_size_is_content_length disk pack desc pack' :
  BasePackager.packEntry disk pack desc = (pack', Resolved true) ->
  exists content enc,
    fs.readFileSync disk (fqp desc) = Return content
    /\ tar.entry pack (BasePackager.entryHeader desc content) content
       = (pack', tar.Called None)
    /\ tar.entries pack' = tar.entries pack ++ [(enc, content)]
    /\ tar.e_name enc = name desc
    /\ tar.e_size enc = Z.of_nat (length content).
Proof.
  intros H. apply packEntry_resolved in H as (content & Hread & Hfin & _ & ->).
  exists content, (fst (encodedEntry desc content)).
  split; [done|]. split; [|by repeat split].
  unfold tar.entry. rewrite Hfin. by rewrite entry_encodes.
Qed.

Lemma packEntry_size_is_content_length_witness :
  exists content enc,
    fs.readFileSync {[ "/cc/main.go" := fileOf ["a"; "b"; "c"]%byte 7 8 9 ]}
      (fqp {| name := "src/main.go"; fqp := "/cc/main.go" |}) = Return content
    /\ tar.entry tar.pack
         (BasePackager.entryHeader
            {| name := "src/main.go"; fqp := "/cc/main.go" |} content) content
       = ({| tar.entries :=
               [encodedEntry {| name := "src/main.go"; fqp := "/cc/main.go" |}
                  ["a"; "b"; "c"]%byte];
             tar.finalized := false |}, tar.Called None)
    /\ tar.entries
         {| tar.entries :=
              [encodedEntry {| name := "src/main.go"; fqp := "/cc/main.go" |}
                 ["a"; "b"; "c"]%byte];
            tar.finalized := false |}
       = tar.entries tar.pack ++ [(enc, content)]
    /\ tar.e_name enc = name {| name := "src/main.go"; fqp := "/cc/main.go" |}
    /\ tar.e_size enc = Z.of_nat (length content).
Proof.
  apply (packEntry_size_is_content_length
           {[ "/cc/main.go" := fileOf ["a"; "b"; "c"]%byte 7 8 9 ]}
           tar.pack {| name := "src/main.go"; fqp := "/cc/main.go" |}).
  reflexivity.
Defined.

(** C5 (counterexample): the read of an empty file returns zero bytes, and
    [packEntry] does not reject. *)
Lemma packEntry_accepts_empty_file :
  let disk : fs.FileSystem := {[ "/cc/empty.go" := fileOf [] 7 8 9 ]} in
  let desc := {| name := "src/empty.go"; fqp := "/cc/empty.go" |} in
  fs.readFileSync disk (fqp desc) = Return []
  /\ ~ (exists pack' err,
          BasePackager.packEntry disk tar.pack desc = (pack', Rejected err)).
Proof.
  simpl. split; [reflexivity|].
  intros (pack' & err & H). vm_compute in H. discriminate.
Qed.

(** C5 (amended): on a pack that is still open, a read of zero bytes is
    not a failure: [packEntry] appends an entry of size 0 with an empty
    body and resolves.  It rejects exactly when the read throws (missing
    or unreadable file), with the error of the read and the pack
    untouched. *)
Theorem packEntry_rejects_exactly_failed_reads disk pack desc :
  tar.finalized pack = false ->
  (fs.readFileSync disk (fqp desc) = Return [] ->
     BasePackager.packEntry disk pack desc
     = ({| tar.entries := tar.entries pack ++ [encodedEntry desc []];
           tar.finalized := false |}, Resolved true)
     /\ tar.e_size (fst (encodedEntry desc [])) = 0)
  /\ (forall pack' err,
        BasePackager.packEntry disk pack desc = (pack', Rejected err)
        <-> pack' = pack /\ fs.readFileSync disk (fqp desc) = Throw err).
Proof.
  intros Hfin. split.
  - intros Hread. split; [|reflexivity]. by apply packEntry_read_ok.
  - intros pack' err.
    destruct (fs.readFileSync disk (fqp desc)) as [content|e] eqn:Hread.
    + rewrite (packEntry_read_ok _ _ _ _ Hread Hfin).
      split; [discriminate | intros [_ ?]; discriminate].
    + rewrite (packEntry_read_failed _ _ _ _ Hread). split.
      * intros [= <- <-]. done.
      * intros [-> [= ->]]. done.
Qed.

Lemma packEntry_rejects_exactly_failed_reads_witness :
  (fs.readFileSync ({[ "/cc/empty.go" := fileOf [] 7 8 9 ]} : fs.FileSystem)
     (fqp {| name := "src/empty.go"; fqp := "/cc/empty.go" |}) = Return [] ->
     BasePackager.packEntry {[ "/cc/empty.go" := fileOf [] 7 8 9 ]} tar.pack
       {| name := "src/empty.go"; fqp := "/cc/empty.go" |}
     = ({| tar.entries :=
             tar.entries tar.pack
             ++ [encodedEntry
                   {| name := "src/empty.go"; fqp := "/cc/empty.go" |} []];
           tar.finalized := false |}, Resolved true)
     /\ tar.e_size
          (fst (encodedEntry
                  {| name := "src/empty.go"; fqp := "/cc/empty.go" |} [])) = 0)
  /\ (forall pack' err,
        BasePackager.packEntry {[ "/cc/empty.go" := fileOf [] 7 8 9 ]} tar.pack
          {| name := "src/empty.go"; fqp := "/cc/empty.go" |}
        = (pack', Rejected err)
        <-> pack' = tar.pack
            /\ fs.readFileSync
                 ({[ "/cc/empty.go" := fileOf [] 7 8 9 ]} : fs.FileSystem)
                 (fqp {| name := "src/empty.go"; fqp := "/cc/empty.go" |})
               = Throw err).
Proof.
  apply (packEntry_rejects_exactly_failed_reads
           {[ "/cc/empty.go" := fileOf [] 7 8 9 ]} tar.pack
           {| name := "src/empty.go"; fqp := "/cc/empty.go" |}).
  reflexivity.
Defined.

(** ** The archive build *)

Lemma contentOf_Some disk p content :
  contentOf disk p = Some content <-> fs.readFileSync disk p = Return content.
Proof.
  unfold contentOf. destruct (fs.readFileSync disk p); split; congruence.
Qed.

Lemma contentOf_None disk p :
  contentOf disk p = None <-> exists err, fs.readFileSync disk p = Throw err.
Proof.
  unfold contentOf. destruct (fs.readFileSync disk p) as [c|e]; split.
  - discriminate.
  - intros [err H]. discriminate.
  - eauto.
  - done.
Qed.

(** The loop never stalls on an open pack, and leaves in it the entries of
    the readable descriptors, appended in the order of the list. *)
Lemma packAll_entries disk ds : forall pack promise,
  tar.finalized pack = false ->
  exists promise',
    BasePackager.packAll disk ds pack promise
    = ({| tar.entries := tar.entries pack ++ packedEntries disk ds;
          tar.finalized := false |}, promise', true).
Proof.
  induction ds as [|d ds IH]; intros pack promise Hfin; simpl.
  - exists promise. rewrite app_nil_r. destruct pack; simpl in *. by subst.
  - destruct (contentOf disk (fqp d)) as [content|] eqn:Hc.
    + apply contentOf_Some in Hc.
      rewrite (packEntry_read_ok _ _ _ _ Hc Hfin).
      destruct (IH {| tar.entries := tar.entries pack ++ [encodedEntry d content];
                      tar.finalized := false |} promise eq_refl)
        as [promise' ->].
      exists promise'. simpl. by rewrite <- app_assoc.
    + apply contentOf_None in Hc as [err Hc].
      rewrite (packEntry_read_failed _ _ _ _ Hc).
      destruct (IH pack (reject err promise) Hfin) as [promise' ->].
      by exists promise'.
Qed.

Lemma packAll_app disk ds1 : forall ds2 pack promise,
  tar.finalized pack = false ->
  BasePackager.packAll disk (ds1 ++ ds2) pack promise
  = BasePackager.packAll disk ds2
      (fst (fst (BasePackager.packAll disk ds1 pack promise)))
      (snd (fst (BasePackager.packAll disk ds1 pack promise))).
Proof.
  induction ds1 as [|d ds1 IH]; intros ds2 pack promise Hfin; simpl.
  - reflexivity.
  - destruct (contentOf disk (fqp d)) as [content|] eqn:Hc.
    + apply contentOf_Some in Hc.
      rewrite (packEntry_read_ok _ _ _ _ Hc Hfin). by apply IH.
    + apply contentOf_None in Hc as [err Hc].
      rewrite (packEntry_read_failed _ _ _ _ Hc). by apply IH.
Qed.

Lemma packedEntries_app disk ds1 ds2 :
  packedEntries disk (ds1 ++ ds2)
  = packedEntries disk ds1 ++ packedEntries disk ds2.
Proof.
  induction ds1 as [|d ds1 IH]; simpl; [done|].
  destruct (contentOf disk (fqp d)); simpl; by rewrite IH.
Qed.

Lemma packedEntries_names disk ds :
  map (fun e => tar.e_name (fst e)) (packedEntries disk ds)
  = map name (List.filter (canRead disk) ds).
Proof.
  induction ds as [|d ds IH]; simpl; [done|]. unfold canRead.
  destruct (contentOf disk (fqp d)); simpl; by rewrite IH.
Qed.

Lemma generateTarGz_packed encode gzip disk ds faults :
  BasePackager.packed (BasePackager.generateTarGz encode gzip disk ds faults)
  = {| tar.entries := packedEntries disk ds; tar.finalized := true |}.
Proof.
  unfold BasePackager.generateTarGz.
  destruct (packAll_entries disk ds tar.pack Pending eq_refl) as [pr ->].
  simpl. by destruct faults.
Qed.

Lemma generateTarGz_destination encode gzip disk ds :
  BasePackager.destination (BasePackager.generateTarGz encode gzip disk ds [])
  = Some (gzip (concat (map (tar.entryBytes encode) (packedEntries disk ds))
                ++ tar.END_OF_TAR)).
Proof.
  unfold BasePackager.generateTarGz.
  destruct (packAll_entries disk ds tar.pack Pending eq_refl) as [pr ->].
  reflexivity.
Qed.

Lemma generateTarGz_destination_faulty encode gzip disk ds f faults :
  BasePackager.destination
    (BasePackager.generateTarGz encode gzip disk ds (f :: faults)) = None.
Proof.
  unfold BasePackager.generateTarGz.
  destruct (packAll_entries disk ds tar.pack Pending eq_refl) as [pr ->].
  reflexivity.
Qed.

(** C8: the entries appended to the pack are those of the readable
    descriptors in the order of the descriptor list; the entries of a
    prefix of the list are complete in the pack before the loop turns to
    the rest; the bytes sent to the destination are the entries laid end
    to end in that order, followed by the end-of-archive marker. *)
Theorem generateTarGz_keeps_descriptor_order encode gzip disk ds1 ds2 faults :
  tar.entries
    (BasePackager.packed
       (BasePackager.generateTarGz encode gzip disk (ds1 ++ ds2) faults))
  = packedEntries disk ds1 ++ packedEntries disk ds2
  /\ tar.entries (fst (fst (BasePackager.packAll disk ds1 tar.pack Pending)))
     = packedEntries disk ds1
  /\ BasePackager.packAll disk (ds1 ++ ds2) tar.pack Pending
     = BasePackager.packAll disk ds2
         (fst (fst (BasePackager.packAll disk ds1 tar.pack Pending)))
         (snd (fst (BasePackager.packAll disk ds1 tar.pack Pending)))
  /\ map (fun e => tar.e_name (fst e))
       (tar.entries
          (BasePackager.packed
             (BasePackager.generateTarGz encode gzip disk (ds1 ++ ds2) faults)))
     = map name (List.filter (canRead disk) (ds1 ++ ds2))
  /\ BasePackager.destination
       (BasePackager.generateTarGz encode gzip disk (ds1 ++ ds2) [])
     = Some (gzip (concat (map (tar.entryBytes encode)
                             (packedEntries disk ds1 ++ packedEntries disk ds2))
                   ++ tar.END_OF_TAR)).
Proof.
  rewrite generateTarGz_packed, generateTarGz_destination. simpl.
  rewrite packedEntries_app, <- packedEntries_app, packedEntries_names.
  rewrite packedEntries_app.
  repeat split; try reflexivity.
  - by destruct (packAll_entries disk ds1 tar.pack Pending eq_refl) as [pr ->].
  - by apply packAll_app.
Qed.

Lemma sameLogicalInput_entries disk1 disk2 ds1 ds2 :
  sameLogicalInput disk1 disk2 ds1 ds2 ->
  packedEntries disk1 ds1 = packedEntries disk2 ds2.
Proof.
  induction 1 as [|d1 d2 ds1 ds2 [Hname Hcontent] _ IH]; simpl; [done|].
  rewrite Hcontent, IH.
  destruct (contentOf disk2 (fqp d2)); [|done].
  f_equal. unfold encodedEntry. by rewrite Hname.
Qed.

(** C1: two builds over the same logical input (the same names in the
    same order, each with the same content, whatever the paths and the
    timestamps of the files on disk) leave the same bytes in the
    destination. *)
Theorem generateTarGz_deterministic encode gzip disk1 disk2 ds1 ds2 faults :
  sameLogicalInput disk1 disk2 ds1 ds2 ->
  BasePackager.destination
    (BasePackager.generateTarGz encode gzip disk1 ds1 faults)
  = BasePackager.destination
      (BasePackager.generateTarGz encode gzip disk2 ds2 faults).
Proof.
  intros Hsame. destruct faults as [|f faults].
  - rewrite !generateTarGz_destination.
    by rewrite (sameLogicalInput_entries _ _ _ _ Hsame).
  - by rewrite !generateTarGz_destination_faulty.
Qed.

Lemma generateTarGz_deterministic_witness :
  BasePackager.destination
    (BasePackager.generateTarGz (fun e => [x75; x73]%byte) (fun b => x1f :: b)
       {[ "/build/1/main.go" := fileOf ["a"; "b"; "c"]%byte 1700 1800 1900 ]}
       [{| name := "src/main.go"; fqp := "/build/1/main.go" |}] [])
  = BasePackager.destination
      (BasePackager.generateTarGz (fun e => [x75; x73]%byte) (fun b => x1f :: b)
         {[ "/build/2/main.go" := fileOf ["a"; "b"; "c"]%byte 42 43 44 ]}
         [{| name := "src/main.go"; fqp := "/build/2/main.go" |}] []).
Proof.
  apply (generateTarGz_deterministic (fun e => [x75; x73]%byte)
           (fun b => x1f :: b)
           {[ "/build/1/main.go" := fileOf ["a"; "b"; "c"]%byte 1700 1800 1900 ]}
           {[ "/build/2/main.go" := fileOf ["a"; "b"; "c"]%byte 42 43 44 ]}).
  constructor; [split; reflexivity | constructor].
Defined.

(** C4 (the code when the first of two files is missing): the returned
    promise is rejected with the error of the read, but the loop goes on,
    the pack is finalized and the destination finishes holding a complete
    archive made of the second entry alone. *)
Theorem generateTarGz_finalizes_after_failed_read encode gzip :
  let disk : fs.FileSystem :=
    {[ "/cc/b.go" := fileOf ["x"]%byte 7 8 9 ]} in
  let a := {| name := "src/a.go"; fqp := "/cc/a.go" |} in
  let b := {| name := "src/b.go"; fqp := "/cc/b.go" |} in
  let o := BasePackager.generateTarGz encode gzip disk [a; b] [] in
  fs.readFileSync disk (fqp a) = Throw (SystemError "ENOENT" "/cc/a.go")
  /\ BasePackager.promise o = Rejected (SystemError "ENOENT" "/cc/a.go")
  /\ tar.finalized (BasePackager.packed o) = true
  /\ tar.entries (BasePackager.packed o) = [encodedEntry b ["x"]%byte]
  /\ BasePackager.destination o
     = Some (gzip (tar.entryBytes encode (encodedEntry b ["x"]%byte)
                   ++ tar.END_OF_TAR)).
Proof.
  intros disk a b o.
  assert (Hentries : packedEntries disk [a; b] = [encodedEntry b ["x"]%byte])
    by reflexivity.
  repeat split; try reflexivity.
  unfold o. rewrite generateTarGz_destination, Hentries. simpl.
  by rewrite app_nil_r.
Qed.

(** The promise resolves only with the [finish] of the destination. *)
Lemma generateTarGz_resolves_after_finish encode gzip disk ds faults v :
  BasePackager.promise (BasePackager.generateTarGz encode gzip disk ds faults)
  = Resolved v ->
  faults = []
  /\ BasePackager.destination
       (BasePackager.generateTarGz encode gzip disk ds faults) <> None.
Proof.
  assert (Hloop : forall ds pack promise v,
    snd (fst (BasePackager.packAll disk ds pack promise)) = Resolved v ->
    promise = Resolved v).
  { clear. intros ds. induction ds as [|d ds IH]; intros pack promise v; simpl.
    - done.
    - destruct (BasePackager.packEntry disk pack d) as [pack' [| |err]]; simpl.
      + done.
      + apply IH.
      + intros H. apply IH in H. by destruct promise. }
  assert (Hfaults : forall (faults : list (stream.Stream * JsError)) st v,
    fst (fold_left BasePackager.raise faults st) = Resolved v ->
    fst st = Resolved v).
  { clear. intros faults.
    induction faults as [|f faults IH]; intros st v; cbn [fold_left].
    - done.
    - intros H. apply IH in H. revert H.
      unfold BasePackager.raise, BasePackager.emit.
      destruct (stream.eqb (fst f) BasePackager.listened); simpl; [|done].
      by destruct (fst st). }
  unfold BasePackager.generateTarGz.
  destruct (BasePackager.packAll disk ds tar.pack Pending)
    as [[pack1 promise1] looped] eqn:Hall.
  pose proof (Hloop ds tar.pack Pending) as Hl. rewrite Hall in Hl. simpl in Hl.
  destruct faults as [|f faults].
  - simpl. destruct (tar.finalized _); simpl; [done|].
    intros H. apply Hl in H. discriminate.
  - intros H. cbn [BasePackager.promise] in H. apply Hfaults in H.
    cbn [fst] in H. apply Hl in H. discriminate.
Qed.

Lemma raise_rejected faults : forall e unc,
  exists unc',
    fold_left BasePackager.raise faults (Rejected e, unc) = (Rejected e, unc').
Proof.
  induction faults as [|f faults IH]; intros e unc; cbn [fold_left].
  - by exists unc.
  - assert (Hstep : exists unc',
      BasePackager.raise (Rejected e, unc) f = (Rejected e, unc')).
    { unfold BasePackager.raise, BasePackager.emit.
      destruct (stream.eqb (fst f) BasePackager.listened); simpl; eauto. }
    destruct Hstep as [unc' ->]. apply IH.
Qed.

Lemma generateTarGz_promise_rejected encode gzip disk ds faults pack1 looped e :
  BasePackager.packAll disk ds tar.pack Pending = (pack1, Rejected e, looped) ->
  BasePackager.promise (BasePackager.generateTarGz encode gzip disk ds faults)
  = Rejected e.
Proof.
  intros Hall. unfold BasePackager.generateTarGz. rewrite Hall.
  destruct (raise_rejected faults e []) as [unc' ->].
  destruct faults; [|done].
  by destruct (tar.finalized _).
Qed.

(** An error of the destination rejects the promise. *)
Lemma generateTarGz_rejects_on_destination_error encode gzip disk ds err faults :
  exists e,
    BasePackager.promise
      (BasePackager.generateTarGz encode gzip disk ds
         ((stream.destStream, err) :: faults)) = Rejected e.
Proof.
  destruct (BasePackager.packAll disk ds tar.pack Pending)
    as [[pack1 promise1] looped] eqn:Hall.
  destruct promise1 as [|v|e].
  - exists err. unfold BasePackager.generateTarGz. rewrite Hall.
    cbn [fold_left].
    replace (BasePackager.raise (Pending, []) (stream.destStream, err))
      with (@Rejected bool err, @nil JsError) by reflexivity.
    by destruct (raise_rejected faults err []) as [unc' ->].
  - pose proof (generateTarGz_resolves_after_finish encode gzip disk ds
                  [(stream.gzipStream, err)] v) as H.
    unfold BasePackager.generateTarGz in H. rewrite Hall in H.
    destruct (H eq_refl) as [? _]. discriminate.
  - exists e. by apply (generateTarGz_promise_rejected _ _ _ _ _ pack1 looped).
Qed.

Lemma packAll_rejected_stays disk ds : forall pack e,
  tar.finalized pack = false ->
  snd (fst (BasePackager.packAll disk ds pack (Rejected e))) = Rejected e.
Proof.
  induction ds as [|d ds IH]; intros pack e Hfin; simpl; [done|].
  destruct (contentOf disk (fqp d)) as [content|] eqn:Hc.
  - apply contentOf_Some in Hc.
    rewrite (packEntry_read_ok _ _ _ _ Hc Hfin). by apply IH.
  - apply contentOf_None in Hc as [err Hc].
    rewrite (packEntry_read_failed _ _ _ _ Hc). by apply IH.
Qed.

(** A failed read of any descriptor rejects the promise of the build. *)
Lemma generateTarGz_rejects_on_failed_read encode gzip disk ds faults :
  Exists (fun d => contentOf disk (fqp d) = None) ds ->
  exists e,
    BasePackager.promise (BasePackager.generateTarGz encode gzip disk ds faults)
    = Rejected e.
Proof.
  intros Hbad.
  assert (Hloop : forall pack,
    tar.finalized pack = false ->
    exists e,
      snd (fst (BasePackager.packAll disk ds pack Pending)) = Rejected e).
  { induction Hbad as [d ds Hd|d ds _ IH]; intros pack Hfin; simpl.
    - apply contentOf_None in Hd as [err Hd].
      rewrite (packEntry_read_failed _ _ _ _ Hd).
      exists err. by apply packAll_rejected_stays.
    - destruct (contentOf disk (fqp d)) as [content|] eqn:Hc.
      + apply contentOf_Some in Hc.
        rewrite (packEntry_read_ok _ _ _ _ Hc Hfin). by apply IH.
      + apply contentOf_None in Hc as [err Hc].
        rewrite (packEntry_read_failed _ _ _ _ Hc).
        exists err. by apply packAll_rejected_stays. }
  destruct (Hloop tar.pack eq_refl) as [e He].
  destruct (BasePackager.packAll disk ds tar.pack Pending)
    as [[pack1 promise1] looped] eqn:Hall.
  simpl in He. subst promise1. exists e.
  by apply (generateTarGz_promise_rejected _ _ _ _ _ pack1 looped).
Qed.

(** C9 (the code when the gzip stream fails): the error has no listener,
    it surfaces as an uncaught exception and the returned promise is
    never settled. *)
Theorem generateTarGz_gzip_error_not_rejected encode gzip (err : JsError) :
  let disk : fs.FileSystem :=
    {[ "/cc/b.go" := fileOf ["x"]%byte 7 8 9 ]} in
  let b := {| name := "src/b.go"; fqp := "/cc/b.go" |} in
  let o := BasePackager.generateTarGz encode gzip disk [b]
             [(stream.gzipStream, err)] in
  BasePackager.listened = stream.destStream
  /\ BasePackager.promise o = Pending
  /\ BasePackager.uncaught o = [err]
  /\ BasePackager.destination o = None.
Proof. simpl. repeat split. Qed.

(** ** Strings and path segments *)

#[local] Arguments String.append : simpl nomatch.

Lemma append_assoc (a b c : string) : (a +:+ b) +:+ c = a +:+ (b +:+ c).
Proof. induction a as [|x a IH]; simpl; [done|]. by rewrite IH. Qed.

Lemma append_nonempty_r (a b : string) :
  b <> EmptyString -> a +:+ b <> EmptyString.
Proof. destruct a; simpl; [done | discriminate]. Qed.

Lemma nonEmpty_spec s : path.nonEmpty s = true <-> s <> EmptyString.
Proof.
  unfold path.nonEmpty. rewrite negb_true_iff, String.eqb_neq. tauto.
Qed.

Lemma eqb_empty_false s : s <> EmptyString -> String.eqb s "" = false.
Proof. by rewrite String.eqb_neq. Qed.

Lemma split_on_nonnil p s : split_on p s <> [].
Proof.
  destruct s as [|c s]; simpl; [done|].
  destruct (p c); [done|]. by destruct (split_on p s).
Qed.

Lemma split_on_app p a c b :
  p c = true ->
  split_on p (a +:+ String c b) = split_on p a ++ split_on p b.
Proof.
  intros Hc. induction a as [|x a IH]; simpl.
  - by rewrite Hc.
  - rewrite IH. destruct (p x); [done|].
    pose proof (split_on_nonnil p a) as Hne.
    by destruct (split_on p a).
Qed.

Lemma split_on_free p s :
  forallb (fun c => negb (p c)) (String.list_ascii_of_string s) = true ->
  split_on p s = [s].
Proof.
  induction s as [|c s IH]; simpl; [done|].
  rewrite andb_true_iff, negb_true_iff. intros [-> Hs]. by rewrite IH.
Qed.

Lemma split_on_pieces_free p s :
  Forall (fun x => forallb (fun c => negb (p c))
                     (String.list_ascii_of_string x) = true)
         (split_on p s).
Proof.
  induction s as [|c s IH]; simpl.
  - by constructor.
  - destruct (p c) eqn:Hc.
    + by constructor.
    + destruct (split_on p s) as [|seg segs].
      { constructor; [simpl; by rewrite Hc | constructor]. }
      inversion IH as [|? ? Hseg Hsegs]; subst. constructor; [|done].
      simpl. by rewrite Hc, Hseg.
Qed.

Lemma sep_isPathSeparator pf : path.isPathSeparator pf (path.sep pf) = true.
Proof. by destruct pf. Qed.

Lemma segments_empty pf : path.segments pf EmptyString = [].
Proof. reflexivity. Qed.

Lemma segments_app_sep pf a b :
  path.segments pf (a +:+ path.sepString pf +:+ b)
  = path.segments pf a ++ path.segments pf b.
Proof.
  unfold path.segments, path.sepString. simpl.
  rewrite split_on_app by apply sep_isPathSeparator.
  apply List.filter_app.
Qed.

Lemma validName_parts pf s :
  validName pf s = true ->
  s <> EmptyString /\ plainSegment s = true /\ sepFree pf s = true.
Proof.
  unfold validName. rewrite !andb_true_iff, nonEmpty_spec. tauto.
Qed.

Lemma segments_name pf s : validName pf s = true -> path.segments pf s = [s].
Proof.
  intros (Hne & _ & Hfree)%validName_parts. unfold path.segments.
  rewrite split_on_free by exact Hfree. simpl.
  apply nonEmpty_spec in Hne. by rewrite Hne.
Qed.

Lemma join_with_cons sep x y l :
  join_with sep (x :: y :: l) = x +:+ sep +:+ join_with sep (y :: l).
Proof. reflexivity. Qed.

Lemma join_with_nonempty pf l :
  forallb (validName pf) l = true -> l <> [] ->
  join_with (path.sepString pf) l <> EmptyString.
Proof.
  destruct l as [|x [|y l]]; simpl; [done| |].
  - rewrite andb_true_r. by intros (Hne & _)%validName_parts _.
  - rewrite andb_true_iff. intros [(Hne & _)%validName_parts _] _.
    by destruct x.
Qed.

Lemma segments_join pf l :
  forallb (validName pf) l = true ->
  path.segments pf (join_with (path.sepString pf) l) = l.
Proof.
  induction l as [|x l IH]; [done|].
  intros [Hx Hl]%andb_true_iff. destruct l as [|y l].
  - by apply segments_name.
  - rewrite join_with_cons, segments_app_sep, (segments_name _ _ Hx).
    by rewrite (IH Hl).
Qed.

Lemma segments_pieces pf s :
  Forall (fun x => x <> EmptyString /\ sepFree pf x = true) (path.segments pf s).
Proof.
  unfold path.segments. apply Forall_forall. intros x Hx.
  apply list_elem_of_In, List.filter_In in Hx as [Hin Hne].
  split; [by apply nonEmpty_spec|].
  pose proof (split_on_pieces_free (path.isPathSeparator pf) s) as Hall.
  rewrite Forall_forall in Hall. by apply Hall, list_elem_of_In.
Qed.

Lemma normalizeString_plain allow segs : forall res,
  forallb plainSegment segs = true ->
  path.normalizeString allow res segs = rev res ++ segs.
Proof.
  induction segs as [|s segs IH]; intros res; simpl.
  - by rewrite app_nil_r.
  - intros [Hs Hsegs]%andb_true_iff. unfold plainSegment in Hs.
    apply andb_true_iff in Hs as [Hdot Hdots].
    apply negb_true_iff in Hdot, Hdots. rewrite Hdot, Hdots.
    rewrite (IH _ Hsegs). simpl. by rewrite <- app_assoc.
Qed.

Lemma validName_plain pf l :
  forallb (validName pf) l = true -> forallb plainSegment l = true.
Proof.
  rewrite !forallb_forall. intros H x Hx.
  by apply H, validName_parts in Hx as (_ & ? & _).
Qed.

Lemma endsWithSep_app pf a b :
  b <> EmptyString -> path.endsWithSep pf (a +:+ b) = path.endsWithSep pf b.
Proof.
  intros Hb. induction a as [|x a IH]; simpl; [done|].
  rewrite IH. destruct (a +:+ b) eqn:Hab; [|done].
  by destruct (append_nonempty_r a b Hb).
Qed.

Lemma endsWithSep_free pf s : sepFree pf s = true -> path.endsWithSep pf s = false.
Proof.
  unfold sepFree. induction s as [|c s IH]; simpl; [done|].
  rewrite andb_true_iff, negb_true_iff. intros [Hc Hs].
  destruct s; [done|]. by apply IH.
Qed.

Lemma takeChars_app a b : path.takeChars (String.length a) (a +:+ b) = a.
Proof. induction a as [|x a IH]; simpl; [by destruct b|]. by rewrite IH. Qed.

Lemma dropChars_app a b : path.dropChars (String.length a) (a +:+ b) = b.
Proof. induction a as [|x a IH]; simpl; [done|]. by rewrite IH. Qed.

(** ** Paths built by the walker *)

Lemma drivePrefix_device pf dev x :
  isDevice pf dev = true ->
  path.drivePrefix pf (dev +:+ path.sepString pf +:+ x) = String.length dev.
Proof.
  destruct dev as [|c0 [|c1 [|c2 dev]]]; simpl; try discriminate.
  - intros _. destruct pf; [done|]. simpl.
    destruct x as [|c1 x]; [done|]. by rewrite andb_false_r.
  - destruct pf; [discriminate|]. intros H. unfold path.drivePrefix.
    by rewrite H.
Qed.

Lemma device_segments_plain pf dev :
  isDevice pf dev = true -> forallb plainSegment (path.segments pf dev) = true.
Proof.
  destruct dev as [|c0 [|c1 [|c2 dev]]]; simpl; try discriminate; [done|].
  destruct pf; [discriminate|].
  intros [->%Ascii.eqb_eq _]%andb_true_iff.
  unfold path.segments. simpl.
  destruct (Ascii.eqb c0 "/" || Ascii.eqb c0 "\"); simpl; [done|].
  unfold plainSegment. simpl. by destruct (Ascii.eqb c0 ".").
Qed.

Lemma render_nonempty pf dev segs : render pf dev segs <> EmptyString.
Proof. unfold render. by apply append_nonempty_r. Qed.

Lemma segments_render pf dev segs :
  forallb (validName pf) segs = true ->
  path.segments pf (render pf dev segs) = path.segments pf dev ++ segs.
Proof.
  intros Hsegs. unfold render. by rewrite segments_app_sep, segments_join.
Qed.

(** [normalize] on an absolute path whose segments need no resolution. *)
Lemma normalize_absolute pf dev body segs :
  isDevice pf dev = true ->
  path.segments pf (path.sepString pf +:+ body) = segs ->
  forallb plainSegment segs = true ->
  join_with (path.sepString pf) segs <> EmptyString ->
  path.endsWithSep pf (path.sepString pf +:+ body) = false ->
  path.normalize pf (dev +:+ path.sepString pf +:+ body)
  = dev +:+ path.sepString pf +:+ join_with (path.sepString pf) segs.
Proof.
  intros Hdev Hsegs Hplain Htail Hends.
  assert (Habs : path.startsWithSep pf (path.sepString pf +:+ body) = true)
    by apply sep_isPathSeparator.
  unfold path.normalize. cbv zeta.
  rewrite (eqb_empty_false (dev +:+ path.sepString pf +:+ body))
    by (apply append_nonempty_r; discriminate).
  rewrite !(drivePrefix_device pf dev body Hdev).
  rewrite takeChars_app, !dropChars_app.
  rewrite Habs, Hsegs, Hends. simpl negb.
  rewrite (normalizeString_plain _ _ [] Hplain). simpl rev. simpl app.
  by rewrite !andb_false_r.
Qed.

(** Joining a valid name onto a resolved path appends one segment. *)
Lemma join_render pf dev rs b :
  isDevice pf dev = true ->
  forallb (validName pf) rs = true ->
  validName pf b = true ->
  path.join pf (render pf dev rs) b = render pf dev (rs ++ [b]).
Proof.
  intros Hdev Hrs Hb.
  pose proof (validName_parts _ _ Hb) as (Hbne & Hbplain & Hbfree).
  assert (Hall : forallb (validName pf) (rs ++ [b]) = true).
  { rewrite forallb_app, Hrs. simpl. by rewrite Hb. }
  unfold path.join.
  rewrite (eqb_empty_false _ (render_nonempty pf dev rs)).
  rewrite (eqb_empty_false _ Hbne).
  rewrite (eqb_empty_false (render pf dev rs +:+ path.sepString pf +:+ b))
    by (apply append_nonempty_r; discriminate).
  unfold render. rewrite !append_assoc.
  apply normalize_absolute; [done| |by apply (validName_plain pf)| |].
  - change (path.sepString pf +:+ join_with (path.sepString pf) rs
            +:+ path.sepString pf +:+ b)
      with (EmptyString +:+ path.sepString pf
            +:+ join_with (path.sepString pf) rs +:+ path.sepString pf +:+ b).
    rewrite !segments_app_sep, segments_empty, segments_join by done.
    by rewrite (segments_name _ _ Hb).
  - apply join_with_nonempty; [done|]. by destruct rs.
  - rewrite <- !append_assoc. rewrite endsWithSep_app by done.
    by apply endsWithSep_free.
Qed.

Lemma entryPath_render pf dev cs : forall rs,
  isDevice pf dev = true ->
  forallb (validName pf) rs = true ->
  forallb (validName pf) cs = true ->
  entryPath pf (render pf dev rs) cs = render pf dev (rs ++ cs).
Proof.
  unfold entryPath.
  induction cs as [|c cs IH]; intros rs Hdev Hrs Hcs; simpl.
  - by rewrite app_nil_r.
  - apply andb_true_iff in Hcs as [Hc Hcs].
    rewrite (join_render _ _ _ _ Hdev Hrs Hc).
    rewrite IH; [by rewrite <- app_assoc | done | | done].
    rewrite forallb_app, Hrs. simpl. by rewrite Hc.
Qed.

Lemma dropCommon_prefix l cs : path.dropCommon l (l ++ cs) = ([], cs).
Proof.
  induction l as [|x l IH]; simpl.
  - by destruct cs.
  - by rewrite String.eqb_refl.
Qed.

Lemma takeChars_drivePrefix_device pf p :
  isDevice pf (path.takeChars (path.drivePrefix pf p) p) = true.
Proof.
  destruct pf, p as [|c0 [|c1 p]]; try done.
  cbn [path.drivePrefix].
  destruct (Ascii.eqb c1 ":" && path.isWindowsDeviceRoot c0) eqn:E; [|done].
  cbn [path.takeChars isDevice]. exact E.
Qed.

Lemma normalizeString_valid pf segs : forall res,
  forallb (validName pf) res = true ->
  Forall (fun x => x <> EmptyString /\ sepFree pf x = true) segs ->
  forallb (validName pf) (path.normalizeString false res segs) = true.
Proof.
  induction segs as [|s segs IH]; intros res Hres Hsegs;
    cbn [path.normalizeString].
  - rewrite forallb_forall in Hres. apply forallb_forall.
    intros x Hx. by apply Hres, in_rev.
  - apply Forall_cons in Hsegs as [[Hne Hfree] Hsegs].
    destruct (String.eqb s ".") eqn:Hdot; [by apply IH|].
    destruct (String.eqb s "..") eqn:Hdots.
    + destruct res as [|top res]; [by apply IH|].
      cbn [forallb] in Hres. apply andb_true_iff in Hres as [Htop Hres].
      destruct (String.eqb top "..") eqn:Htopdots; [|by apply IH].
      apply validName_parts in Htop as (_ & Hplain & _).
      unfold plainSegment in Hplain. rewrite Htopdots in Hplain.
      by rewrite andb_false_r in Hplain.
    + apply IH; [|done]. cbn [forallb]. rewrite Hres, andb_true_r.
      unfold validName, plainSegment. rewrite Hdot, Hdots, Hfree.
      apply nonEmpty_spec in Hne. by rewrite Hne.
Qed.

(** Whatever the path, [resolve] returns an absolute, normalised path:
    a device and valid names below it; the device is empty only when the
    working directory has none. *)
Lemma resolve_render pf cwd p :
  exists dev rs,
    path.resolve pf cwd p = render pf dev rs
    /\ isDevice pf dev = true
    /\ forallb (validName pf) rs = true
    /\ (dev = EmptyString -> path.device pf cwd = EmptyString).
Proof.
  unfold path.resolve. eexists _, _. split; [reflexivity|]. split; [|split].
  - destruct (path.nonEmpty (path.device pf p));
      apply takeChars_drivePrefix_device.
  - apply normalizeString_valid; [done|].
    repeat match goal with
           | |- context [if ?b then _ else _] => destruct b
           end;
      try apply Forall_app; try split; apply segments_pieces.
  - destruct (path.nonEmpty (path.device pf p)) eqn:Hd; [|done].
    apply nonEmpty_spec in Hd. intros Hnil. by destruct Hd.
Qed.

(** [resolve] leaves an absolute, normalised path as it is. *)
Lemma resolve_fixed pf cwd dev rs :
  isDevice pf dev = true ->
  forallb (validName pf) rs = true ->
  (dev = EmptyString -> path.device pf cwd = EmptyString) ->
  path.resolve pf cwd (render pf dev rs) = render pf dev rs.
Proof.
  intros Hdev Hrs Hcwd.
  assert (Hdevice : path.device pf (render pf dev rs) = dev).
  { unfold path.device, render. rewrite drivePrefix_device by done.
    apply takeChars_app. }
  assert (Htail : path.tail pf (render pf dev rs)
                  = path.sepString pf +:+ join_with (path.sepString pf) rs).
  { unfold path.tail, render. rewrite drivePrefix_device by done.
    apply dropChars_app. }
  unfold path.resolve. rewrite Hdevice, Htail.
  assert (Habs : path.startsWithSep pf
                   (path.sepString pf +:+ join_with (path.sepString pf) rs)
                 = true) by apply sep_isPathSeparator.
  rewrite Habs.
  change (path.sepString pf +:+ join_with (path.sepString pf) rs)
    with (EmptyString +:+ path.sepString pf
          +:+ join_with (path.sepString pf) rs).
  rewrite segments_app_sep, segments_empty, segments_join by done.
  cbn [app]. rewrite normalizeString_plain by by apply (validName_plain pf).
  cbn [rev app]. unfold render.
  destruct (path.nonEmpty dev) eqn:Hne; [done|].
  assert (dev = EmptyString) as -> by (by destruct dev).
  by rewrite (Hcwd eq_refl).
Qed.

(** The path of a descendant of the resolved directory, relative to the
    directory as given, lists the segments below the directory. *)
Lemma relative_below pf cwd filePath dev rs cs :
  path.resolve pf cwd filePath = render pf dev rs ->
  isDevice pf dev = true ->
  forallb (validName pf) rs = true ->
  (dev = EmptyString -> path.device pf cwd = EmptyString) ->
  forallb (validName pf) cs = true ->
  cs <> [] ->
  path.relative pf cwd filePath (render pf dev (rs ++ cs))
  = join_with (path.sepString pf) cs.
Proof.
  intros Hroot Hdev Hrs Hcwd Hcs Hne.
  assert (Hall : forallb (validName pf) (rs ++ cs) = true)
    by (by rewrite forallb_app, Hrs, Hcs).
  assert (Hentry : path.resolve pf cwd (render pf dev (rs ++ cs))
                   = render pf dev (rs ++ cs)) by by apply resolve_fixed.
  assert (Hdiff : render pf dev rs <> render pf dev (rs ++ cs)).
  { intros Heq. apply (f_equal (path.segments pf)) in Heq.
    rewrite !segments_render in Heq by done.
    apply app_inv_head in Heq.
    rewrite <- (app_nil_r rs) in Heq at 1. by apply app_inv_head in Heq. }
  assert (Hgiven : filePath <> render pf dev (rs ++ cs)).
  { intros ->. rewrite Hentry in Hroot. by symmetry in Hroot. }
  unfold path.relative.
  apply String.eqb_neq in Hgiven. rewrite Hgiven, Hroot, Hentry.
  apply String.eqb_neq in Hdiff. rewrite Hdiff.
  rewrite !segments_render by done.
  by rewrite app_assoc, dropCommon_prefix.
Qed.

(** A resolved path is its own resolution, but for a path without drive
    under a working directory that has one. *)
Lemma resolve_of_resolved pf cwd p :
  isResolved pf p = true ->
  (path.device pf p = EmptyString -> path.device pf cwd = EmptyString) ->
  path.resolve pf cwd p = p.
Proof.
  unfold isResolved. intros [Heq%String.eqb_eq Hplain]%andb_true_iff Hcwd.
  rewrite Heq at 1 2. apply resolve_fixed.
  - apply takeChars_drivePrefix_device.
  - rewrite forallb_forall in Hplain. apply forallb_forall. intros x Hx.
    pose proof (segments_pieces pf
                  (path.dropChars (path.drivePrefix pf p) p)) as Hpieces.
    rewrite Forall_forall in Hpieces.
    destruct (Hpieces x) as [Hne Hfree]; [by apply list_elem_of_In|].
    unfold validName. rewrite (Hplain x Hx), Hfree.
    apply nonEmpty_spec in Hne. by rewrite Hne.
  - exact Hcwd.
Qed.

Lemma endsWithSep_join pf cs :
  forallb (validName pf) cs = true ->
  path.endsWithSep pf (join_with (path.sepString pf) cs) = false.
Proof.
  induction cs as [|x cs IH]; [done|].
  intros [Hx Hcs]%andb_true_iff. destruct cs as [|y cs].
  - by apply validName_parts in Hx as (_ & _ & ?%(endsWithSep_free pf)).
  - rewrite join_with_cons, <- append_assoc, endsWithSep_app.
    + by apply IH.
    + by apply join_with_nonempty.
Qed.

(** Joining a relative path of valid names onto [META-INF]. *)
Lemma join_META_INF pf cs :
  forallb (validName pf) cs = true ->
  cs <> [] ->
  path.join pf "META-INF" (join_with (path.sepString pf) cs)
  = "META-INF" +:+ path.sepString pf +:+ join_with (path.sepString pf) cs.
Proof.
  intros Hcs Hne.
  set (rel := join_with (path.sepString pf) cs).
  assert (Hrel : rel <> EmptyString) by by apply join_with_nonempty.
  assert (Hmeta : validName pf "META-INF" = true) by by destruct pf.
  assert (Hsegs : path.segments pf ("META-INF" +:+ path.sepString pf +:+ rel)
                  = "META-INF" :: cs).
  { rewrite segments_app_sep, (segments_name _ _ Hmeta). unfold rel.
    by rewrite segments_join. }
  assert (Hends : path.endsWithSep pf ("META-INF" +:+ path.sepString pf +:+ rel)
                  = false).
  { rewrite <- append_assoc, endsWithSep_app by done.
    by apply endsWithSep_join. }
  unfold path.join. rewrite (eqb_empty_false _ Hrel).
  change (String.eqb "META-INF" "") with false. cbv iota.
  rewrite (eqb_empty_false ("META-INF" +:+ path.sepString pf +:+ rel))
    by discriminate.
  unfold path.normalize.
  rewrite (eqb_empty_false ("META-INF" +:+ path.sepString pf +:+ rel))
    by discriminate.
  assert (Hdrive : path.drivePrefix pf
                     ("META-INF" +:+ path.sepString pf +:+ rel) = 0%nat)
    by by destruct pf.
  rewrite Hdrive. cbn [path.takeChars path.dropChars]. cbv zeta.
  rewrite Hsegs, Hends.
  assert (Habs : path.startsWithSep pf
                   ("META-INF" +:+ path.sepString pf +:+ rel) = false)
    by by destruct pf.
  rewrite Habs. simpl negb.
  rewrite (normalizeString_plain true ("META-INF" :: cs) []).
  - simpl rev. simpl app. rewrite andb_false_r.
    destruct cs as [|c cs]; [done|].
    rewrite join_with_cons. fold rel.
    rewrite (eqb_empty_false ("META-INF" +:+ path.sepString pf +:+ rel))
      by discriminate.
    reflexivity.
  - simpl. by apply (validName_plain pf).
Qed.

(** [split] on the backslash followed by [join] on the slash turns every
    backslash into a slash. *)
Lemma split_join_slashed s : join_with "/" (split s "\") = slashed s.
Proof.
  unfold split. induction s as [|c s IH]; [done|].
  cbn [split_on slashed].
  pose proof (split_on_nonnil (Ascii.eqb "\") s) as Hne.
  rewrite (Ascii.eqb_sym c "\").
  destruct (Ascii.eqb "\" c);
    destruct (split_on (Ascii.eqb "\") s) as [|seg segs]; try done.
  - rewrite join_with_cons, IH. reflexivity.
  - rewrite <- IH. by destruct segs.
Qed.

Lemma slashed_app a b : slashed (a +:+ b) = slashed a +:+ slashed b.
Proof. induction a as [|x a IH]; simpl; [done|]. by rewrite IH. Qed.

Lemma slashed_sep pf : slashed (path.sepString pf) = "/".
Proof. by destruct pf. Qed.

Lemma slashed_join pf cs :
  slashed (join_with (path.sepString pf) cs) = join_with "/" (map slashed cs).
Proof.
  induction cs as [|x cs IH]; [done|]. destruct cs as [|y cs]; [done|].
  rewrite join_with_cons, !slashed_app, slashed_sep, IH. reflexivity.
Qed.

Lemma slashed_id s : noBackslash s = true -> slashed s = s.
Proof.
  unfold noBackslash. induction s as [|c s IH]; simpl; [done|].
  rewrite andb_true_iff, negb_true_iff. intros [-> Hs]. by rewrite IH.
Qed.

Lemma sepFree_win32_noBackslash s :
  sepFree path.win32 s = true -> noBackslash s = true.
Proof.
  unfold sepFree, noBackslash. induction s as [|c s IH]; simpl; [done|].
  rewrite !andb_true_iff, !negb_true_iff, orb_false_iff.
  intros [[_ ->] Hs]. auto.
Qed.

(** ** The walk and the metadata descriptors *)

Lemma size_pos n : (1 <= klaw.size n)%nat.
Proof. destruct n; simpl; lia. Qed.

Lemma queueSize_app a b :
  klaw.queueSize (a ++ b) = (klaw.queueSize a + klaw.queueSize b)%nat.
Proof. unfold klaw.queueSize. by rewrite map_app, list_sum_app. Qed.

Lemma queueSize_children pf p children :
  klaw.queueSize (map (fun c => (path.join pf p (fst c), snd c)) children)
  = list_sum
      (map (fun c => match c with (_, ch) => klaw.size ch end) children).
Proof.
  unfold klaw.queueSize. rewrite map_map. f_equal.
  apply map_ext. by intros [c ch].
Qed.

Lemma child_In c children ch : child c children = Some ch -> In (c, ch) children.
Proof.
  induction children as [|[c' ch'] children IH]; simpl; [done|].
  destruct (String.eqb_spec c' c) as [->|_].
  - intros [= ->]. by left.
  - intros H. right. by apply IH.
Qed.

Lemma healthy_children children :
  healthy (klaw.Dir children) = true ->
  Forall (fun c => healthy (snd c) = true) children.
Proof.
  simpl. rewrite forallb_forall, Forall_forall.
  intros H [c ch] Hin%list_elem_of_In. by apply (H (c, ch)).
Qed.

(** On a tree without failures the walk visits every node, each under the
    path joined from the names that lead to it, and then ends. *)
Lemma read_healthy pf : forall fuel paths,
  (klaw.queueSize paths < fuel)%nat ->
  Forall (fun c => healthy (snd c) = true) paths ->
  exists items,
    klaw.read pf fuel paths = map klaw.data items ++ [klaw.end_]
    /\ forall p n cs n' st,
         In (p, n) paths -> lookup n cs = Some n' ->
         klaw.lstat n' = Return st ->
         In {| klaw.path := entryPath pf p cs; klaw.stats := st |} items.
Proof.
  induction fuel as [|fuel IH]; intros paths Hsize Hhealthy; [lia|].
  destruct paths as [|[p0 n0] paths].
  { exists []. split; [done|]. by intros p n cs n' st []. }
  apply Forall_cons in Hhealthy as [Hn0 Hpaths]. simpl in Hn0.
  change (klaw.queueSize ((p0, n0) :: paths))
    with (klaw.size n0 + klaw.queueSize paths)%nat in Hsize.
  assert (Hleaf : forall st0,
    klaw.lstat n0 = Return st0 ->
    (forall c cs, lookup n0 (c :: cs) = None) ->
    klaw.read pf (S fuel) ((p0, n0) :: paths)
    = klaw.data {| klaw.path := p0; klaw.stats := st0 |}
        :: klaw.read pf fuel paths ->
    exists items,
      klaw.read pf (S fuel) ((p0, n0) :: paths)
      = map klaw.data items ++ [klaw.end_]
      /\ forall p n cs n' st,
           In (p, n) ((p0, n0) :: paths) -> lookup n cs = Some n' ->
           klaw.lstat n' = Return st ->
           In {| klaw.path := entryPath pf p cs; klaw.stats := st |} items).
  { intros st0 Hst0 Hnone Hread.
    destruct (IH paths) as (items & Heq & Hin);
      [pose proof (size_pos n0); lia | done |].
    exists ({| klaw.path := p0; klaw.stats := st0 |} :: items). split.
    - by rewrite Hread, Heq.
    - intros p n cs n' st [[= <- <-]|Htail] Hlook Hst.
      + destruct cs as [|c cs]; [|by rewrite Hnone in Hlook].
        injection Hlook as <-. left. unfold entryPath. simpl. congruence.
      + right. by apply (Hin p n cs n' st). }
  destruct n0 as [| |children|err|err]; try discriminate.
  - by apply (Hleaf klaw.StFile).
  - by apply (Hleaf klaw.StOther).
  - set (pathItems :=
           map (fun c => (path.join pf p0 (fst c), snd c)) children).
    destruct (IH (paths ++ pathItems)) as (items & Heq & Hin).
    + rewrite queueSize_app. unfold pathItems.
      rewrite queueSize_children. simpl in Hsize. lia.
    + apply Forall_app. split; [done|].
      apply healthy_children in Hn0. unfold pathItems.
      by rewrite Forall_map.
    + exists ({| klaw.path := p0; klaw.stats := klaw.StDirectory |} :: items).
      split.
      * change (klaw.read pf (S fuel) ((p0, klaw.Dir children) :: paths))
          with (klaw.data
                  {| klaw.path := p0; klaw.stats := klaw.StDirectory |}
                  :: klaw.read pf fuel (paths ++ pathItems)).
        by rewrite Heq.
      * intros p n cs n' st [[= <- <-]|Htail] Hlook Hst.
        -- destruct cs as [|c cs].
           ++ injection Hlook as <-. left. unfold entryPath.
              simpl in *. congruence.
           ++ simpl in Hlook.
              destruct (child c children) as [ch|] eqn:Hch; [|done].
              right.
              apply (Hin (path.join pf p0 c) ch cs n' st); [|done|done].
              apply in_or_app. right. unfold pathItems.
              apply child_In in Hch.
              by apply (in_map (fun c => (path.join pf p0 (fst c), snd c))
                          children (c, ch)).
        -- right. apply (Hin p n cs n' st); [|done|done].
           apply in_or_app. by left.
Qed.

Lemma fold_data pf cwd filePath items : forall st,
  fold_left (BasePackager.onEvent pf cwd filePath) (map klaw.data items) st
  = {| BasePackager.descriptors :=
         BasePackager.descriptors st ++ collected pf cwd filePath items;
       BasePackager.settled := BasePackager.settled st |}.
Proof.
  induction items as [|item items IH]; intros st.
  - simpl. rewrite app_nil_r. by destruct st.
  - cbn [map fold_left]. rewrite IH. unfold collected.
    cbn [flat_map BasePackager.onEvent].
    destruct (klaw.isFile (klaw.stats item)
              && BasePackager.isMetadata pf (klaw.path item)); simpl.
    + by rewrite <- app_assoc.
    + done.
Qed.

(** On a tree without failures the promise resolves with the descriptors
    collected from the items of the walk. *)
Lemma findMetadataDescriptors_resolves pf cwd filePath root :
  healthy root = true ->
  exists items,
    BasePackager.findMetadataDescriptors pf cwd filePath root
    = Resolved (collected pf cwd filePath items)
    /\ forall cs n' st,
         lookup root cs = Some n' -> klaw.lstat n' = Return st ->
         In {| klaw.path := entryPath pf (path.resolve pf cwd filePath) cs;
               klaw.stats := st |} items.
Proof.
  intros Hroot.
  destruct (read_healthy pf (S (klaw.size root))
              [(path.resolve pf cwd filePath, root)])
    as (items & Heq & Hin).
  - unfold klaw.queueSize. simpl. lia.
  - by repeat constructor.
  - exists items. split.
    + unfold BasePackager.findMetadataDescriptors, klaw.walk.
      rewrite Heq, fold_left_app, fold_data. reflexivity.
    + intros cs n' st Hlook Hst.
      apply (Hin (path.resolve pf cwd filePath) root cs n' st);
        [by left|done|done].
Qed.

(** The logical name given to the file reached through [cs] below the
    directory the walk starts from. *)
Lemma descriptorOf_name pf cwd filePath cs st :
  forallb (validName pf) cs = true ->
  cs <> [] ->
  BasePackager.descriptorOf pf cwd filePath
    {| klaw.path := entryPath pf (path.resolve pf cwd filePath) cs;
       klaw.stats := st |}
  = {| name := "META-INF/" +:+ join_with "/" (map slashed cs);
       fqp := entryPath pf (path.resolve pf cwd filePath) cs |}.
Proof.
  intros Hcs Hne.
  destruct (resolve_render pf cwd filePath)
    as (dev & rs & Hroot & Hdev & Hrs & Hcwd).
  unfold BasePackager.descriptorOf. cbn [klaw.path]. f_equal.
  rewrite Hroot, (entryPath_render _ _ _ _ Hdev Hrs Hcs).
  rewrite (relative_below _ _ _ _ _ _ Hroot Hdev Hrs Hcwd Hcs Hne).
  rewrite (join_META_INF _ _ Hcs Hne), split_join_slashed.
  rewrite !slashed_app, slashed_sep, slashed_join. reflexivity.
Qed.


Lemma slashed_names_id pf cs :
  forallb (validName pf) cs = true ->
  forallb noBackslash cs = true \/ pf = path.win32 ->
  map slashed cs = cs.
Proof.
  intros Hcs Hor.
  assert (Hno : forallb noBackslash cs = true).
  { destruct Hor as [H| ->]; [done|].
    rewrite forallb_forall in Hcs. apply forallb_forall. intros x Hx.
    apply Hcs, validName_parts in Hx as (_ & _ & Hfree).
    by apply sepFree_win32_noBackslash. }
  clear Hcs Hor. induction cs as [|c cs IH]; [done|]. simpl in *.
  apply andb_true_iff in Hno as [Hc Hrest].
  by rewrite (slashed_id _ Hc), (IH Hrest).
Qed.




(** * Further properties of the packager *)

(** ** The walk: what is collected and when it fails *)

(** Every item of the walk is a node of a tree in the queue, under the
    path joined from the names leading to it, with the stats of the
    node. *)
Lemma read_sound pf item : forall fuel paths,
  In (klaw.data item) (klaw.read pf fuel paths) ->
  exists p n cs n',
    In (p, n) paths /\ reaches n cs n'
    /\ klaw.path item = entryPath pf p cs
    /\ klaw.lstat n' = Return (klaw.stats item).
Proof.
  induction fuel as [|fuel IH]; intros paths Hin; [done|].
  destruct paths as [|[p0 n0] paths]; simpl in Hin.
  { by destruct Hin. }
  assert (Hhead : forall st, klaw.lstat n0 = Return st ->
    klaw.data item = klaw.data {| klaw.path := p0; klaw.stats := st |} ->
    exists p n cs n',
      In (p, n) ((p0, n0) :: paths) /\ reaches n cs n'
      /\ klaw.path item = entryPath pf p cs
      /\ klaw.lstat n' = Return (klaw.stats item)).
  { intros st Hst [= ->]. exists p0, n0, [], n0.
    split; [by left|]. split; [constructor|]. by split. }
  assert (Htail : (exists p n cs n',
      In (p, n) paths /\ reaches n cs n'
      /\ klaw.path item = entryPath pf p cs
      /\ klaw.lstat n' = Return (klaw.stats item)) ->
    exists p n cs n',
      In (p, n) ((p0, n0) :: paths) /\ reaches n cs n'
      /\ klaw.path item = entryPath pf p cs
      /\ klaw.lstat n' = Return (klaw.stats item)).
  { intros (p & n & cs & n' & Hp & Hrest). exists p, n, cs, n'.
    split; [by right | done]. }
  destruct n0 as [| |children|err|err]; simpl in Hin.
  - destruct Hin as [Hin|Hin]; [by apply (Hhead klaw.StFile) | auto].
  - destruct Hin as [Hin|Hin]; [by apply (Hhead klaw.StOther) | auto].
  - destruct Hin as [Hin|Hin]; [by apply (Hhead klaw.StDirectory)|].
    apply IH in Hin as (p & n & cs & n' & Hp & Hreach & Hpath & Hst).
    apply in_app_or in Hp as [Hp|Hp].
    + apply Htail. by exists p, n, cs, n'.
    + apply in_map_iff in Hp as ([c ch] & [= <- <-] & Hch).
      exists p0, (klaw.Dir children), (c :: cs), n'.
      split; [by left|]. split; [by econstructor|]. by split.
  - destruct Hin as [Hin|[Hin|Hin]];
      [by apply (Hhead klaw.StDirectory) | done | auto].
  - by destruct Hin as [Hin|[]].
Qed.

(** What the listeners keep true of the descriptors gathered so far and of
    a list the promise was resolved with. *)
Lemma fold_sound pf cwd filePath (Q : Descriptor -> Prop) events :
  (forall item,
     In (klaw.data item) events ->
     klaw.isFile (klaw.stats item)
     && BasePackager.isMetadata pf (klaw.path item) = true ->
     Q (BasePackager.descriptorOf pf cwd filePath item)) ->
  forall st,
    Forall Q (BasePackager.descriptors st) ->
    (forall ds, BasePackager.settled st = Resolved ds -> Forall Q ds) ->
    Forall Q (BasePackager.descriptors
                (fold_left (BasePackager.onEvent pf cwd filePath) events st))
    /\ (forall ds,
          BasePackager.settled
            (fold_left (BasePackager.onEvent pf cwd filePath) events st)
          = Resolved ds -> Forall Q ds).
Proof.
  induction events as [|ev events IH]; intros Hev st Hdesc Hset.
  { by split. }
  cbn [fold_left]. apply IH.
  - intros item Hin. apply Hev. by right.
  - destruct ev as [item|err|]; cbn [BasePackager.onEvent]; try done.
    destruct (klaw.isFile (klaw.stats item)
              && BasePackager.isMetadata pf (klaw.path item)) eqn:Hkeep;
      [|done].
    cbn [BasePackager.descriptors]. apply Forall_app. split; [done|].
    constructor; [|constructor]. apply Hev; [by left | done].
  - destruct ev as [item|err|]; cbn [BasePackager.onEvent].
    + by destruct (klaw.isFile (klaw.stats item)
                   && BasePackager.isMetadata pf (klaw.path item)).
    + cbn [BasePackager.settled]. intros ds Hds. apply Hset.
      by destruct (BasePackager.settled st).
    + cbn [BasePackager.settled BasePackager.descriptors]. intros ds Hds.
      destruct (BasePackager.settled st) as [|ds'|e] eqn:Hst;
        simpl in Hds; [|auto|done].
      by injection Hds as <-.
Qed.

(** X1: for a working directory as [process.cwd()] returns it and a
    metadata path that may be relative or unnormalised (on win32 neither
    a UNC path nor relative to a drive), whatever the tree, every
    descriptor the promise resolves with stands for a regular file of the
    tree whose path has the extension [.json]: its [fqp] is the path of
    that file below the resolved metadata path, and directories, special
    files and files of another extension never yield a descriptor. *)
Theorem findMetadataDescriptors_only_json_files pf cwd filePath root ds d :
  workingDirectory pf cwd = true ->
  ordinaryRoot pf filePath = true ->
  BasePackager.findMetadataDescriptors pf cwd filePath root = Resolved ds ->
  In d ds ->
  exists cs,
    reaches root cs klaw.File
    /\ fqp d = entryPath pf (path.resolve pf cwd filePath) cs
    /\ BasePackager.isMetadata pf (fqp d) = true
    /\ path.extname pf (fqp d) = ".json"
    /\ d = BasePackager.descriptorOf pf cwd filePath
             {| klaw.path := entryPath pf (path.resolve pf cwd filePath) cs;
                klaw.stats := klaw.StFile |}.
Proof.
  intros _ _ Hfind Hd.
  set (Q := fun d : Descriptor =>
    exists cs,
      reaches root cs klaw.File
      /\ fqp d = entryPath pf (path.resolve pf cwd filePath) cs
      /\ BasePackager.isMetadata pf (fqp d) = true
      /\ path.extname pf (fqp d) = ".json"
      /\ d = BasePackager.descriptorOf pf cwd filePath
               {| klaw.path := entryPath pf (path.resolve pf cwd filePath) cs;
                  klaw.stats := klaw.StFile |}).
  destruct (fold_sound pf cwd filePath Q (klaw.walk pf cwd filePath root))
    with (st := {| BasePackager.descriptors := [];
                   BasePackager.settled := Pending |}) as [_ Hres].
  - intros [p st] Hin [Hfile Hmeta]%andb_true_iff. cbn [klaw.path klaw.stats] in *.
    apply read_sound in Hin as (p0 & n & cs & n' & Hp & Hreach & Hpath & Hst).
    destruct Hp as [[= <- <-]|[]]. cbn [klaw.path klaw.stats] in *.
    destruct st; try discriminate.
    assert (n' = klaw.File) as -> by (by destruct n').
    exists cs. subst p. repeat split; try done.
    by apply isMetadata_iff.
  - constructor.
  - discriminate.
  - apply Hres in Hfind. rewrite Forall_forall in Hfind.
    by apply Hfind, list_elem_of_In.
Qed.

Lemma findMetadataDescriptors_only_json_files_witness :
  exists cs,
    reaches (klaw.Dir [("idx.json", klaw.File); ("notes.txt", klaw.File)])
      cs klaw.File
    /\ fqp {| name := "META-INF/idx.json"; fqp := "/vx/m/idx.json" |}
       = entryPath path.posix (path.resolve path.posix "/vx" "./m/") cs
    /\ BasePackager.isMetadata path.posix
         (fqp {| name := "META-INF/idx.json"; fqp := "/vx/m/idx.json" |})
       = true
    /\ path.extname path.posix
         (fqp {| name := "META-INF/idx.json"; fqp := "/vx/m/idx.json" |})
       = ".json"
    /\ {| name := "META-INF/idx.json"; fqp := "/vx/m/idx.json" |}
       = BasePackager.descriptorOf path.posix "/vx" "./m/"
           {| klaw.path :=
                entryPath path.posix (path.resolve path.posix "/vx" "./m/") cs;
              klaw.stats := klaw.StFile |}.
Proof.
  apply (findMetadataDescriptors_only_json_files path.posix "/vx" "./m/"
           (klaw.Dir [("idx.json", klaw.File); ("notes.txt", klaw.File)])
           [{| name := "META-INF/idx.json"; fqp := "/vx/m/idx.json" |}]).
  - reflexivity.
  - reflexivity.
  - reflexivity.
  - by left.
Defined.

Lemma unhealthy_children children :
  healthy (klaw.Dir children) = false ->
  Exists (fun c => healthy (snd c) = false) children.
Proof.
  simpl. induction children as [|[c ch] children IH]; simpl; [done|].
  destruct (healthy ch) eqn:Hch; simpl.
  - intros H. right. by apply IH.
  - intros _. by left.
Qed.

(** A failure anywhere in the queued trees shows up in the walk as an
    [error] event with nothing but items before it. *)
Lemma read_unhealthy pf : forall fuel paths,
  (klaw.queueSize paths < fuel)%nat ->
  Exists (fun c => healthy (snd c) = false) paths ->
  exists items e rest,
    klaw.read pf fuel paths = map klaw.data items ++ klaw.error e :: rest.
Proof.
  induction fuel as [|fuel IH]; intros paths Hsize Hbad; [lia|].
  destruct paths as [|[p0 n0] paths]; [by inversion Hbad|].
  change (klaw.queueSize ((p0, n0) :: paths))
    with (klaw.size n0 + klaw.queueSize paths)%nat in Hsize.
  assert (Hleaf : forall st0,
    healthy n0 = true ->
    klaw.read pf (S fuel) ((p0, n0) :: paths)
    = klaw.data {| klaw.path := p0; klaw.stats := st0 |}
        :: klaw.read pf fuel paths ->
    exists items e rest,
      klaw.read pf (S fuel) ((p0, n0) :: paths)
      = map klaw.data items ++ klaw.error e :: rest).
  { intros st0 Hn0 Hread.
    destruct (IH paths) as (items & e & rest & Heq).
    - pose proof (size_pos n0). lia.
    - inversion Hbad as [? ? Hhead|]; subst; [|done].
      simpl in Hhead. congruence.
    - exists ({| klaw.path := p0; klaw.stats := st0 |} :: items), e, rest.
      by rewrite Hread, Heq. }
  destruct n0 as [| |children|err|err].
  - by apply (Hleaf klaw.StFile).
  - by apply (Hleaf klaw.StOther).
  - set (pathItems :=
           map (fun c => (path.join pf p0 (fst c), snd c)) children).
    destruct (IH (paths ++ pathItems)) as (items & e & rest & Heq).
    + rewrite queueSize_app. unfold pathItems.
      rewrite queueSize_children. simpl in Hsize. lia.
    + apply Exists_app.
      inversion Hbad as [? ? Hhead|? ? Htail]; subst; [right | by left].
      apply unhealthy_children in Hhead. unfold pathItems.
      by rewrite Exists_map.
    + exists ({| klaw.path := p0; klaw.stats := klaw.StDirectory |} :: items),
             e, rest.
      change (klaw.read pf (S fuel) ((p0, klaw.Dir children) :: paths))
        with (klaw.data {| klaw.path := p0; klaw.stats := klaw.StDirectory |}
                :: klaw.read pf fuel (paths ++ pathItems)).
      by rewrite Heq.
  - by exists [{| klaw.path := p0; klaw.stats := klaw.StDirectory |}], err,
              (klaw.read pf fuel paths).
  - by exists [], err, [].
Qed.

Lemma fold_rejected pf cwd filePath events : forall st e,
  BasePackager.settled st = Rejected e ->
  BasePackager.settled
    (fold_left (BasePackager.onEvent pf cwd filePath) events st)
  = Rejected e.
Proof.
  induction events as [|ev events IH]; intros st e Hst; [done|].
  cbn [fold_left]. apply IH.
  destruct ev as [item|err|]; cbn [BasePackager.onEvent].
  - by destruct (klaw.isFile (klaw.stats item)
                 && BasePackager.isMetadata pf (klaw.path item)).
  - cbn [BasePackager.settled]. by rewrite Hst.
  - cbn [BasePackager.settled]. by rewrite Hst.
Qed.

(** X2: the promise of [findMetadataDescriptors] always settles: it
    resolves when no [lstat] and no [readdir] of the walk fails, and is
    rejected as soon as one does (a missing root, an unreadable
    directory), whatever was collected before. *)
Theorem findMetadataDescriptors_resolves_iff_walk_succeeds pf cwd filePath
    root :
  match BasePackager.findMetadataDescriptors pf cwd filePath root with
  | Resolved _ => healthy root = true
  | Rejected _ => healthy root = false
  | Pending => False
  end.
Proof.
  destruct (healthy root) eqn:Hroot.
  - destruct (findMetadataDescriptors_resolves pf cwd filePath root Hroot)
      as (items & -> & _). done.
  - destruct (read_unhealthy pf (S (klaw.size root))
                [(path.resolve pf cwd filePath, root)])
      as (items & e & rest & Heq).
    + unfold klaw.queueSize. simpl. lia.
    + by constructor.
    + unfold BasePackager.findMetadataDescriptors, klaw.walk.
      rewrite Heq, fold_left_app, fold_data. cbn [fold_left].
      by rewrite (fold_rejected pf cwd filePath rest _ e).
Qed.

(** X3: when the metadata path, resolved against a working directory as
    [process.cwd()] returns it, is itself a regular file (the path may be
    relative or unnormalised; on win32 neither a UNC path nor relative to
    a drive), the walk yields that one item under its resolved path: a
    file whose resolved path has the extension [.json] is described under
    the bare name [META-INF] (its relative path is empty), any other file
    gives no descriptor. *)
Theorem findMetadataDescriptors_of_a_file pf cwd filePath :
  workingDirectory pf cwd = true ->
  ordinaryRoot pf filePath = true ->
  BasePackager.findMetadataDescriptors pf cwd filePath klaw.File
  = Resolved (if BasePackager.isMetadata pf (path.resolve pf cwd filePath)
              then [{| name := "META-INF";
                       fqp := path.resolve pf cwd filePath |}]
              else []).
Proof.
  intros _ _.
  unfold BasePackager.findMetadataDescriptors, klaw.walk.
  cbn [klaw.size klaw.read klaw.lstat fold_left BasePackager.onEvent
       klaw.stats klaw.path klaw.isFile andb].
  destruct (BasePackager.isMetadata pf (path.resolve pf cwd filePath));
    [|done].
  cbn [BasePackager.descriptors BasePackager.settled resolve app].
  unfold BasePackager.descriptorOf. cbn [klaw.path].
  assert (Hrel : path.relative pf cwd filePath (path.resolve pf cwd filePath)
                 = EmptyString).
  { unfold path.relative.
    destruct (String.eqb filePath (path.resolve pf cwd filePath)); [done|].
    destruct (resolve_render pf cwd filePath)
      as (dev & rs & Hroot & Hdev & Hrs & Hcwd).
    rewrite Hroot, (resolve_fixed _ _ _ _ Hdev Hrs Hcwd).
    by rewrite String.eqb_refl. }
  rewrite Hrel. by destruct pf.
Qed.

Lemma findMetadataDescriptors_of_a_file_witness :
  BasePackager.findMetadataDescriptors path.posix "/vx" "b.json/." klaw.File
  = Resolved (if BasePackager.isMetadata path.posix
                   (path.resolve path.posix "/vx" "b.json/.")
              then [{| name := "META-INF";
                       fqp := path.resolve path.posix "/vx" "b.json/." |}]
              else []).
Proof.
  apply (findMetadataDescriptors_of_a_file path.posix "/vx" "b.json/.");
    reflexivity.
Defined.

(** ** The archive build: success, failure and what a success means *)

Lemma canRead_content disk d :
  canRead disk d = true <->
  exists content, fs.readFileSync disk (fqp d) = Return content.
Proof.
  unfold canRead.
  destruct (contentOf disk (fqp d)) as [content|] eqn:Hc.
  - apply contentOf_Some in Hc. split; [eauto | done].
  - apply contentOf_None in Hc as [err Hc]. split; [done|].
    intros [content H]. congruence.
Qed.

Lemma packAll_all_read disk ds : forall pack promise,
  Forall (fun d => canRead disk d = true) ds ->
  tar.finalized pack = false ->
  snd (fst (BasePackager.packAll disk ds pack promise)) = promise.
Proof.
  induction ds as [|d ds IH]; intros pack promise Hall Hfin; [done|].
  apply Forall_cons in Hall as [[content Hd]%canRead_content Hall]. simpl.
  rewrite (packEntry_read_ok _ _ _ _ Hd Hfin). by apply IH.
Qed.

Lemma packedEntries_In disk ds d content :
  In d ds -> fs.readFileSync disk (fqp d) = Return content ->
  In (encodedEntry d content) (packedEntries disk ds).
Proof.
  intros Hin Hread. apply contentOf_Some in Hread.
  induction ds as [|d' ds IH]; [done|]. simpl.
  destruct Hin as [->|Hin].
  - rewrite Hread. by left.
  - destruct (contentOf disk (fqp d')); [right|]; by apply IH.
Qed.

Lemma filter_all_read disk ds :
  Forall (fun d => canRead disk d = true) ds ->
  List.filter (canRead disk) ds = ds.
Proof.
  induction 1 as [|d ds Hd _ IH]; simpl; [done|]. by rewrite Hd, IH.
Qed.

Lemma not_all_read disk ds :
  forallb (canRead disk) ds = false ->
  Exists (fun d => contentOf disk (fqp d) = None) ds.
Proof.
  induction ds as [|d ds IH]; simpl; [done|].
  unfold canRead at 1.
  destruct (contentOf disk (fqp d)) eqn:Hd; simpl.
  - intros H. right. by apply IH.
  - intros _. by left.
Qed.

(** X4: when every descriptor can be read and no stream of the pipeline
    fails, the promise resolves with [true], the pack holds one entry per
    descriptor under the descriptor's name, in the order of the list, and
    the destination has finished with the compressed archive. *)
Theorem generateTarGz_resolves_when_all_read encode gzip disk ds :
  Forall (fun d => canRead disk d = true) ds ->
  BasePackager.promise (BasePackager.generateTarGz encode gzip disk ds [])
  = Resolved true
  /\ map (fun e => tar.e_name (fst e))
       (tar.entries
          (BasePackager.packed
             (BasePackager.generateTarGz encode gzip disk ds [])))
     = map name ds
  /\ length (tar.entries
               (BasePackager.packed
                  (BasePackager.generateTarGz encode gzip disk ds [])))
     = length ds
  /\ BasePackager.destination
       (BasePackager.generateTarGz encode gzip disk ds [])
     = Some (gzip (concat (map (tar.entryBytes encode) (packedEntries disk ds))
                   ++ tar.END_OF_TAR)).
Proof.
  intros Hall.
  assert (Hnames : map (fun e => tar.e_name (fst e)) (packedEntries disk ds)
                   = map name ds)
    by (by rewrite packedEntries_names, filter_all_read).
  split; [|split; [|split]].
  - pose proof (packAll_all_read disk ds tar.pack Pending Hall eq_refl) as Hp.
    unfold BasePackager.generateTarGz.
    destruct (packAll_entries disk ds tar.pack Pending eq_refl) as [pr Heq].
    rewrite Heq in Hp |- *. simpl in Hp. by subst pr.
  - by rewrite generateTarGz_packed.
  - rewrite generateTarGz_packed. cbn [tar.entries].
    by rewrite <- (length_map (fun e => tar.e_name (fst e))), Hnames, length_map.
  - apply generateTarGz_destination.
Qed.

Lemma generateTarGz_resolves_when_all_read_witness :
  BasePackager.promise
    (BasePackager.generateTarGz (fun e => [x75; x73]%byte) (fun b => x1f :: b)
       {[ "/cc/b.go" := fileOf ["x"]%byte 7 8 9 ]}
       [{| name := "src/b.go"; fqp := "/cc/b.go" |}] [])
  = Resolved true
  /\ map (fun e => tar.e_name (fst e))
       (tar.entries
          (BasePackager.packed
             (BasePackager.generateTarGz (fun e => [x75; x73]%byte)
                (fun b => x1f :: b)
                {[ "/cc/b.go" := fileOf ["x"]%byte 7 8 9 ]}
                [{| name := "src/b.go"; fqp := "/cc/b.go" |}] [])))
     = map name [{| name := "src/b.go"; fqp := "/cc/b.go" |}]
  /\ length (tar.entries
               (BasePackager.packed
                  (BasePackager.generateTarGz (fun e => [x75; x73]%byte)
                     (fun b => x1f :: b)
                     {[ "/cc/b.go" := fileOf ["x"]%byte 7 8 9 ]}
                     [{| name := "src/b.go"; fqp := "/cc/b.go" |}] [])))
     = length [{| name := "src/b.go"; fqp := "/cc/b.go" |}]
  /\ BasePackager.destination
       (BasePackager.generateTarGz (fun e => [x75; x73]%byte)
          (fun b => x1f :: b)
          {[ "/cc/b.go" := fileOf ["x"]%byte 7 8 9 ]}
          [{| name := "src/b.go"; fqp := "/cc/b.go" |}] [])
     = Some (x1f :: concat
                     (map (tar.entryBytes (fun e => [x75; x73]%byte))
                        (packedEntries
                           {[ "/cc/b.go" := fileOf ["x"]%byte 7 8 9 ]}
                           [{| name := "src/b.go"; fqp := "/cc/b.go" |}]))
                   ++ tar.END_OF_TAR).
Proof.
  apply (generateTarGz_resolves_when_all_read (fun e => [x75; x73]%byte)
           (fun b => x1f :: b)
           {[ "/cc/b.go" := fileOf ["x"]%byte 7 8 9 ]}
           [{| name := "src/b.go"; fqp := "/cc/b.go" |}]).
  constructor; [reflexivity | constructor].
Defined.

(** X5: a resolved promise can be trusted: it is resolved with [true], no
    stream failed, every descriptor was read, each has its entry in the
    pack under its name and with its content, in the order of the list,
    and the destination has finished. *)
Theorem generateTarGz_resolved_means_complete encode gzip disk ds faults v :
  BasePackager.promise (BasePackager.generateTarGz encode gzip disk ds faults)
  = Resolved v ->
  v = true
  /\ faults = []
  /\ Forall (fun d => canRead disk d = true) ds
  /\ map (fun e => tar.e_name (fst e))
       (tar.entries
          (BasePackager.packed
             (BasePackager.generateTarGz encode gzip disk ds faults)))
     = map name ds
  /\ (forall d, In d ds ->
        exists content,
          fs.readFileSync disk (fqp d) = Return content
          /\ In (encodedEntry d content)
               (tar.entries
                  (BasePackager.packed
                     (BasePackager.generateTarGz encode gzip disk ds faults))))
  /\ BasePackager.destination
       (BasePackager.generateTarGz encode gzip disk ds faults) <> None.
Proof.
  intros Hres.
  destruct (generateTarGz_resolves_after_finish _ _ _ _ _ _ Hres)
    as [-> Hdest].
  assert (Hall : Forall (fun d => canRead disk d = true) ds).
  { destruct (forallb (canRead disk) ds) eqn:Hb.
    - rewrite forallb_forall in Hb. apply Forall_forall.
      intros d Hd. by apply Hb, list_elem_of_In.
    - apply not_all_read in Hb.
      destruct (generateTarGz_rejects_on_failed_read encode gzip disk ds [] Hb)
        as [e He].
      congruence. }
  pose proof (packAll_all_read disk ds tar.pack Pending Hall eq_refl) as Hp.
  assert (Htrue : BasePackager.promise
                    (BasePackager.generateTarGz encode gzip disk ds [])
                  = Resolved true).
  { unfold BasePackager.generateTarGz.
    destruct (packAll_entries disk ds tar.pack Pending eq_refl) as [pr Heq].
    rewrite Heq in Hp |- *. simpl in Hp. by subst pr. }
  rewrite generateTarGz_packed. cbn [tar.entries].
  repeat split; try done.
  - congruence.
  - by rewrite packedEntries_names, filter_all_read.
  - intros d Hd. rewrite Forall_forall in Hall.
    destruct (proj1 (canRead_content disk d)) as [content Hc].
    { by apply Hall, list_elem_of_In. }
    exists content. split; [done|]. by apply packedEntries_In.
Qed.

Lemma generateTarGz_resolved_means_complete_witness :
  true = true
  /\ @nil (stream.Stream * JsError) = []
  /\ Forall (fun d => canRead {[ "/cc/b.go" := fileOf ["x"]%byte 7 8 9 ]} d
                      = true)
       [{| name := "src/b.go"; fqp := "/cc/b.go" |}]
  /\ map (fun e => tar.e_name (fst e))
       (tar.entries
          (BasePackager.packed
             (BasePackager.generateTarGz (fun e => [x75; x73]%byte)
                (fun b => x1f :: b)
                {[ "/cc/b.go" := fileOf ["x"]%byte 7 8 9 ]}
                [{| name := "src/b.go"; fqp := "/cc/b.go" |}] [])))
     = map name [{| name := "src/b.go"; fqp := "/cc/b.go" |}]
  /\ (forall d, In d [{| name := "src/b.go"; fqp := "/cc/b.go" |}] ->
        exists content,
          fs.readFileSync {[ "/cc/b.go" := fileOf ["x"]%byte 7 8 9 ]} (fqp d)
          = Return content
          /\ In (encodedEntry d content)
               (tar.entries
                  (BasePackager.packed
                     (BasePackager.generateTarGz (fun e => [x75; x73]%byte)
                        (fun b => x1f :: b)
                        {[ "/cc/b.go" := fileOf ["x"]%byte 7 8 9 ]}
                        [{| name := "src/b.go"; fqp := "/cc/b.go" |}] []))))
  /\ BasePackager.destination
       (BasePackager.generateTarGz (fun e => [x75; x73]%byte)
          (fun b => x1f :: b)
          {[ "/cc/b.go" := fileOf ["x"]%byte 7 8 9 ]}
          [{| name := "src/b.go"; fqp := "/cc/b.go" |}] []) <> None.
Proof.
  apply (generateTarGz_resolved_means_complete (fun e => [x75; x73]%byte)
           (fun b => x1f :: b)
           {[ "/cc/b.go" := fileOf ["x"]%byte 7 8 9 ]}
           [{| name := "src/b.go"; fqp := "/cc/b.go" |}] [] true).
  reflexivity.
Defined.

(** X6: when reads fail, the promise is rejected with the error of the
    first descriptor, in list order, whose read throws; failures of later
    descriptors do not change the reason. *)
Theorem generateTarGz_rejects_with_first_failure encode gzip disk ds1 d ds2 err :
  Forall (fun d => canRead disk d = true) ds1 ->
  fs.readFileSync disk (fqp d) = Throw err ->
  BasePackager.promise
    (BasePackager.generateTarGz encode gzip disk (ds1 ++ d :: ds2) [])
  = Rejected err.
Proof.
  intros Hall Hd.
  destruct (BasePackager.packAll disk (ds1 ++ d :: ds2) tar.pack Pending)
    as [[pack1 promise1] looped] eqn:Heq.
  assert (Hp : promise1 = Rejected err).
  { rewrite packAll_app in Heq by done.
    rewrite (packAll_all_read disk ds1 tar.pack Pending Hall eq_refl) in Heq.
    destruct (packAll_entries disk ds1 tar.pack Pending eq_refl) as [pr Hds1].
    rewrite Hds1 in Heq. cbn [fst snd BasePackager.packAll] in Heq.
    rewrite (packEntry_read_failed _ _ _ _ Hd) in Heq. cbn [reject] in Heq.
    pose proof (packAll_rejected_stays disk ds2
                  {| tar.entries := tar.entries tar.pack
                                    ++ packedEntries disk ds1;
                     tar.finalized := false |} err eq_refl) as Hstay.
    rewrite Heq in Hstay. done. }
  subst promise1.
  by apply (generateTarGz_promise_rejected _ _ _ _ _ pack1 looped).
Qed.

Lemma generateTarGz_rejects_with_first_failure_witness :
  BasePackager.promise
    (BasePackager.generateTarGz (fun e => [x75; x73]%byte) (fun b => x1f :: b)
       {[ "/cc/b.go" := fileOf ["x"]%byte 7 8 9 ]}
       ([{| name := "src/b.go"; fqp := "/cc/b.go" |}]
        ++ {| name := "src/a.go"; fqp := "/cc/a.go" |}
           :: [{| name := "src/c.go"; fqp := "/cc/c.go" |}]) [])
  = Rejected (SystemError "ENOENT" "/cc/a.go").
Proof.
  apply (generateTarGz_rejects_with_first_failure (fun e => [x75; x73]%byte)
           (fun b => x1f :: b)
           {[ "/cc/b.go" := fileOf ["x"]%byte 7 8 9 ]}
           [{| name := "src/b.go"; fqp := "/cc/b.go" |}]
           {| name := "src/a.go"; fqp := "/cc/a.go" |}
           [{| name := "src/c.go"; fqp := "/cc/c.go" |}]).
  - constructor; [reflexivity | constructor].
  - reflexivity.
Defined.

(** X8: discovery and build compose: below a resolved metadata root whose
    walk meets no failure, a regular [.json] file that can be read ends up
    in the pack as an entry named [META-INF/] followed by its relative
    path (backslashes turned into slashes), carrying the content of the
    file. *)
Theorem metadata_file_reaches_archive encode gzip pf cwd filePath root disk cs
    content faults :
  isResolved pf filePath = true ->
  healthy root = true ->
  forallb (validName pf) cs = true ->
  cs <> [] ->
  lookup root cs = Some klaw.File ->
  BasePackager.isMetadata pf (entryPath pf (path.resolve pf cwd filePath) cs)
  = true ->
  fs.readFileSync disk (entryPath pf (path.resolve pf cwd filePath) cs)
  = Return content ->
  exists ds,
    BasePackager.findMetadataDescriptors pf cwd filePath root = Resolved ds
    /\ In (encodedEntry
             {| name := "META-INF/" +:+ join_with "/" (map slashed cs);
                fqp := entryPath pf (path.resolve pf cwd filePath) cs |}
             content)
          (tar.entries
             (BasePackager.packed
                (BasePackager.generateTarGz encode gzip disk ds faults))).
Proof.
  intros _ Hroot Hcs Hne Hlook Hmeta Hread.
  destruct (findMetadataDescriptors_resolves pf cwd filePath root Hroot)
    as (items & Hfind & Hitems).
  exists (collected pf cwd filePath items). split; [done|].
  rewrite generateTarGz_packed. cbn [tar.entries].
  apply packedEntries_In; [|done].
  unfold collected. apply in_flat_map.
  exists {| klaw.path := entryPath pf (path.resolve pf cwd filePath) cs;
            klaw.stats := klaw.StFile |}.
  split; [by apply (Hitems cs klaw.File)|].
  cbn [klaw.stats klaw.path klaw.isFile]. rewrite Hmeta. simpl.
  left. by apply descriptorOf_name.
Qed.

Lemma metadata_file_reaches_archive_witness :
  exists ds,
    BasePackager.findMetadataDescriptors path.posix "/cc" "/cc/META-INF"
      (klaw.Dir [("statedb", klaw.Dir [("idx1.json", klaw.File)])])
    = Resolved ds
    /\ In (encodedEntry
             {| name := "META-INF/"
                        +:+ join_with "/" (map slashed ["statedb"; "idx1.json"]);
                fqp := entryPath path.posix
                         (path.resolve path.posix "/cc" "/cc/META-INF")
                         ["statedb"; "idx1.json"] |} ["{"; "}"]%byte)
          (tar.entries
             (BasePackager.packed
                (BasePackager.generateTarGz (fun e => [x75; x73]%byte)
                   (fun b => x1f :: b)
                   {[ "/cc/META-INF/statedb/idx1.json"
                      := fileOf ["{"; "}"]%byte 7 8 9 ]}
                   ds []))).
Proof.
  apply (metadata_file_reaches_archive (fun e => [x75; x73]%byte)
           (fun b => x1f :: b) path.posix "/cc" "/cc/META-INF"
           (klaw.Dir [("statedb", klaw.Dir [("idx1.json", klaw.File)])])
           {[ "/cc/META-INF/statedb/idx1.json" := fileOf ["{"; "}"]%byte 7 8 9 ]}
           ["statedb"; "idx1.json"] ["{"; "}"]%byte []);
    try reflexivity.
  discriminate.
Defined.

(** ** Classification by file name *)

Lemma chars_app a b :
  String.list_ascii_of_string (a +:+ b)
  = String.list_ascii_of_string a ++ String.list_ascii_of_string b.
Proof. induction a as [|x a IH]; simpl; [done|]. by rewrite IH. Qed.

Lemma chars_length a : length (String.list_ascii_of_string a) = String.length a.
Proof. induction a as [|x a IH]; simpl; [done|]. by rewrite IH. Qed.

Lemma string_length_app a b :
  String.length (a +:+ b) = (String.length a + String.length b)%nat.
Proof. induction a as [|x a IH]; simpl; [done|]. by rewrite IH. Qed.

Lemma substring_all b : String.substring 0 (String.length b) b = b.
Proof. induction b as [|x b IH]; simpl; [done|]. by rewrite IH. Qed.

Lemma substring_app a b :
  String.substring (String.length a) (String.length b) (a +:+ b) = b.
Proof. induction a as [|x a IH]; simpl; [apply substring_all | done]. Qed.

Lemma forallb_rev {A} (f : A -> bool) l : forallb f (rev l) = forallb f l.
Proof.
  induction l as [|x l IH]; simpl; [done|].
  rewrite forallb_app, IH. simpl. by rewrite andb_true_r, andb_comm.
Qed.

Lemma drivePrefix_le pf dir rest :
  (path.drivePrefix pf (dir +:+ path.sepString pf +:+ rest)
   <= String.length dir)%nat.
Proof.
  destruct pf; [simpl; lia|].
  destruct dir as [|c0 [|c1 dir]]; cbn [String.append path.sepString].
  - cbn [path.drivePrefix path.sep].
    destruct rest as [|c1 rest]; [simpl; lia|].
    replace (path.isWindowsDeviceRoot "\") with false by reflexivity.
    rewrite andb_false_r. simpl. lia.
  - cbn [path.drivePrefix path.sep].
    replace (Ascii.eqb "\" ":") with false by reflexivity. simpl. lia.
  - cbn [path.drivePrefix String.length].
    destruct (Ascii.eqb c1 ":" && path.isWindowsDeviceRoot c0); lia.
Qed.

(** The scan over the characters of an extension body, before any dot was
    seen: nothing moves once the end is marked. *)
Lemma scan_body pf rest l : forall i sp en ms,
  en <> -1 ->
  forallb (fun c => negb (path.isPathSeparator pf c) && negb (Ascii.eqb c "."))
    l = true ->
  path.extname_scan pf (l ++ rest) i
    {| path.startDot := -1; path.startPart := sp; path.end_ := en;
       path.matchedSlash := ms; path.preDotState := 0 |}
  = path.extname_scan pf rest (i - Z.of_nat (length l))
      {| path.startDot := -1; path.startPart := sp; path.end_ := en;
         path.matchedSlash := ms; path.preDotState := 0 |}.
Proof.
  induction l as [|c l IH]; intros i sp en ms Hen Hl.
  - simpl. f_equal. lia.
  - cbn [forallb] in Hl.
    apply andb_true_iff in Hl as [[Hsep Hdot]%andb_true_iff Hl].
    apply negb_true_iff in Hsep, Hdot.
    cbn [app path.extname_scan]. rewrite Hsep, Hdot.
    unfold path.sawEnd, path.sawOther.
    cbn [path.end_ path.startDot].
    apply Z.eqb_neq in Hen. rewrite Hen. cbn [path.startDot].
    rewrite Z.eqb_refl. cbn [negb].
    rewrite IH by (try apply Z.eqb_neq; done). f_equal.
    cbn [length]. lia.
Qed.

(** The scan over the characters of the stem, after the dot: only the
    state of the characters before the dot moves, away from 0. *)
Lemma scan_stem pf rest l : forall i sd sp en ms pre,
  sd <> -1 -> en <> -1 ->
  forallb (fun c => negb (path.isPathSeparator pf c)) l = true ->
  exists pre',
    path.extname_scan pf (l ++ rest) i
      {| path.startDot := sd; path.startPart := sp; path.end_ := en;
         path.matchedSlash := ms; path.preDotState := pre |}
    = path.extname_scan pf rest (i - Z.of_nat (length l))
        {| path.startDot := sd; path.startPart := sp; path.end_ := en;
           path.matchedSlash := ms; path.preDotState := pre' |}
    /\ (l = [] /\ pre' = pre \/ pre' = 1 \/ pre' = -1).
Proof.
  induction l as [|c l IH]; intros i sd sp en ms pre Hsd Hen Hl.
  - exists pre. split; [|by left]. simpl. f_equal. lia.
  - cbn [forallb] in Hl. apply andb_true_iff in Hl as [Hsep Hl].
    apply negb_true_iff in Hsep.
    apply Z.eqb_neq in Hsd as Hsd', Hen as Hen'.
    assert (Hstep : exists pre1,
      (pre1 = 1 \/ pre1 = -1)
      /\ path.extname_scan pf ((c :: l) ++ rest) i
           {| path.startDot := sd; path.startPart := sp; path.end_ := en;
              path.matchedSlash := ms; path.preDotState := pre |}
         = path.extname_scan pf (l ++ rest) (i - 1)
             {| path.startDot := sd; path.startPart := sp; path.end_ := en;
                path.matchedSlash := ms; path.preDotState := pre1 |}).
    { cbn [app path.extname_scan]. rewrite Hsep.
      unfold path.sawEnd, path.sawDot, path.sawOther.
      cbn [path.end_ path.startDot]. rewrite Hen'.
      cbn [path.startDot path.preDotState]. rewrite Hsd'. cbn [negb].
      destruct (Ascii.eqb c ".").
      - exists 1. split; [by left|].
        destruct (pre =? 1) eqn:Hpre; cbn [negb]; [|done].
        apply Z.eqb_eq in Hpre. by subst pre.
      - exists (-1). split; [by right | done]. }
    destruct Hstep as (pre1 & Hpre1 & ->).
    destruct (IH (i - 1) sd sp en ms pre1 Hsd Hen Hl) as (pre' & -> & Hpre').
    exists pre'. split.
    + f_equal. cbn [length]. lia.
    + right. destruct Hpre' as [[_ ->]|Hpre']; done.
Qed.

(** The scan of a file name: extension body, dot, stem, then the
    separator that ends it. *)
Lemma scan_file_name pf R S E sp n :
  E <> [] -> S <> [] ->
  forallb (fun c => negb (path.isPathSeparator pf c) && negb (Ascii.eqb c "."))
    E = true ->
  forallb (fun c => negb (path.isPathSeparator pf c)) S = true ->
  Z.of_nat (length E) + Z.of_nat (length S) + 2 <= n ->
  exists pre',
    (pre' = 1 \/ pre' = -1)
    /\ path.extname_scan pf
         (rev E ++ "."%char :: rev S ++ path.sep pf :: R) (n - 1)
         {| path.startDot := -1; path.startPart := sp; path.end_ := -1;
            path.matchedSlash := true; path.preDotState := 0 |}
       = {| path.startDot := n - 1 - Z.of_nat (length E);
            path.startPart := n - 1 - Z.of_nat (length E) - Z.of_nat (length S);
            path.end_ := n;
            path.matchedSlash := false;
            path.preDotState := pre' |}.
Proof.
  intros HE HS Hbody Hfree Hn.
  destruct (rev E) as [|c l] eqn:HrevE.
  { apply (f_equal (@rev _)) in HrevE. rewrite rev_involutive in HrevE. done. }
  assert (Hl : Z.of_nat (length l) = Z.of_nat (length E) - 1).
  { apply (f_equal (@length _)) in HrevE. rewrite length_rev in HrevE.
    simpl in HrevE. lia. }
  assert (HlenS : (0 < length S)%nat) by (destruct S; [done | simpl; lia]).
  assert (Hcl : forallb (fun c => negb (path.isPathSeparator pf c)
                                  && negb (Ascii.eqb c ".")) (c :: l) = true).
  { rewrite <- HrevE, forallb_rev. exact Hbody. }
  cbn [forallb] in Hcl.
  apply andb_true_iff in Hcl as [[Hcsep Hcdot]%andb_true_iff Hcl].
  apply negb_true_iff in Hcsep, Hcdot.
  cbn [app path.extname_scan]. rewrite Hcsep, Hcdot.
  unfold path.sawEnd at 1. cbn [path.end_]. rewrite Z.eqb_refl.
  unfold path.sawOther at 1. cbn [path.startDot]. rewrite Z.eqb_refl.
  cbn [negb path.startDot path.startPart path.preDotState].
  rewrite scan_body by (done || lia).
  assert (Hdotsep : path.isPathSeparator pf "." = false) by by destruct pf.
  cbn [path.extname_scan]. rewrite Hdotsep.
  replace (Ascii.eqb "." ".") with true by reflexivity.
  unfold path.sawEnd at 1. cbn [path.end_].
  replace (n - 1 + 1 =? -1) with false by (symmetry; apply Z.eqb_neq; lia).
  unfold path.sawDot at 1. cbn [path.startDot]. rewrite Z.eqb_refl.
  cbn [path.startPart path.end_ path.matchedSlash path.preDotState].
  set (idot := n - 1 - 1 - Z.of_nat (length l)).
  destruct (scan_stem pf (path.sep pf :: R)
              (rev S) (idot - 1) idot sp (n - 1 + 1) false 0)
    as (pre' & -> & Hpre');
    [unfold idot; lia | lia | by rewrite forallb_rev |].
  assert (Hpre : pre' = 1 \/ pre' = -1).
  { destruct Hpre' as [[Hnil _]|Hpre']; [|done].
    apply (f_equal (@length _)) in Hnil. rewrite length_rev in Hnil.
    simpl in Hnil. lia. }
  exists pre'. split; [done|].
  cbn [path.extname_scan]. rewrite sep_isPathSeparator.
  cbn [path.matchedSlash negb path.startDot path.end_ path.preDotState
       path.startPart].
  rewrite length_rev. unfold idot. f_equal; lia.
Qed.

(** For a file name made of a stem, a dot and an extension body, below
    any directory, [extname] is the dot and the body. *)
Lemma extname_of_file_name pf dir stem e :
  path.nonEmpty stem = true ->
  sepFree pf stem = true ->
  extensionBody pf e = true ->
  path.extname pf (dir +:+ path.sepString pf +:+ stem +:+ "." +:+ e)
  = "." +:+ e.
Proof.
  intros Hstem Hfree [He Hbody]%andb_true_iff.
  apply nonEmpty_spec in Hstem, He.
  set (p := dir +:+ path.sepString pf +:+ stem +:+ "." +:+ e).
  set (E := String.list_ascii_of_string e) in *.
  set (S := String.list_ascii_of_string stem).
  set (n := Z.of_nat (String.length p)).
  assert (Hlen : n = Z.of_nat (String.length dir) + 1 + Z.of_nat (length S)
                     + 1 + Z.of_nat (length E)).
  { unfold n, p, S, E. rewrite !string_length_app, !chars_length. simpl. lia. }
  assert (HE : E <> []) by (unfold E; by destruct e).
  assert (HS : S <> []) by (unfold S; by destruct stem).
  pose proof (drivePrefix_le pf dir (stem +:+ "." +:+ e)) as Hstart.
  fold p in Hstart.
  unfold path.extname. fold p. fold n.
  set (start := path.drivePrefix pf p) in *.
  assert (Hcodes :
    rev (drop start (String.list_ascii_of_string p))
    = rev E ++ "."%char :: rev S ++ path.sep pf
        :: rev (drop start (String.list_ascii_of_string dir))).
  { unfold p. rewrite !chars_app.
    rewrite drop_app_le by (rewrite chars_length; lia).
    fold S. fold E. cbn [String.list_ascii_of_string path.sepString app].
    rewrite !rev_app_distr. cbn [rev app].
    rewrite !rev_app_distr. cbn [rev app].
    by rewrite <- !app_assoc. }
  rewrite Hcodes.
  destruct (scan_file_name pf
              (rev (drop start (String.list_ascii_of_string dir)))
              S E (Z.of_nat start) n HE HS Hbody Hfree)
    as (pre' & Hpre & ->); [lia|].
  cbn [path.startDot path.end_ path.preDotState path.startPart].
  assert (HlenE : (0 < length E)%nat) by (destruct E; [done | simpl; lia]).
  replace (n - 1 - Z.of_nat (length E) =? -1) with false
    by (symmetry; apply Z.eqb_neq; lia).
  replace (n =? -1) with false by (symmetry; apply Z.eqb_neq; lia).
  replace (pre' =? 0) with false
    by (symmetry; apply Z.eqb_neq; destruct Hpre; lia).
  replace (n - 1 - Z.of_nat (length E) =? n - 1) with false
    by (symmetry; apply Z.eqb_neq; lia).
  rewrite andb_false_r. cbn [orb andb].
  unfold slice.
  replace (Z.to_nat (n - 1 - Z.of_nat (length E)))
    with (String.length (dir +:+ path.sepString pf +:+ stem)).
  2:{ rewrite !string_length_app. unfold S in Hlen.
      rewrite chars_length in Hlen. simpl. lia. }
  replace (Z.to_nat (n - (n - 1 - Z.of_nat (length E))))
    with (String.length ("." +:+ e)).
  2:{ unfold E. rewrite chars_length. simpl. lia. }
  unfold p.
  replace (dir +:+ path.sepString pf +:+ stem +:+ "." +:+ e)
    with ((dir +:+ path.sepString pf +:+ stem) +:+ "." +:+ e)
    by (by rewrite !append_assoc).
  apply substring_app.
Qed.

(** X9: a file whose name is a stem, a dot and an extension without
    further dots, in whatever directory, is classified by that extension
    alone: dots inside the stem do not matter, [isMetadata] holds exactly
    for the extension [json], and [isSource] exactly when the extension,
    dot included, is in the keep list. *)
Theorem classification_by_file_name pf keep dir stem e :
  path.nonEmpty stem = true ->
  sepFree pf stem = true ->
  extensionBody pf e = true ->
  path.extname pf (dir +:+ path.sepString pf +:+ stem +:+ "." +:+ e)
  = "." +:+ e
  /\ (BasePackager.isMetadata pf
        (dir +:+ path.sepString pf +:+ stem +:+ "." +:+ e) = true
      <-> e = "json")
  /\ (exists b,
        BasePackager.isSource pf {| BasePackager.keep := Some keep |}
          (dir +:+ path.sepString pf +:+ stem +:+ "." +:+ e) = Return b
        /\ (b = true <-> In ("." +:+ e) keep)).
Proof.
  intros Hstem Hfree He.
  pose proof (extname_of_file_name pf dir stem e Hstem Hfree He) as Hext.
  split; [done|]. split.
  - rewrite isMetadata_iff, Hext. split; [by intros [= ->] | by intros ->].
  - eexists. split; [reflexivity|]. by rewrite indexOf_In, Hext.
Qed.

Lemma classification_by_file_name_witness :
  path.extname path.posix
    ("/cc/META-INF/statedb" +:+ path.sepString path.posix
     +:+ "idx.v1" +:+ "." +:+ "json") = "." +:+ "json"
  /\ (BasePackager.isMetadata path.posix
        ("/cc/META-INF/statedb" +:+ path.sepString path.posix
         +:+ "idx.v1" +:+ "." +:+ "json") = true
      <-> "json" = "json")
  /\ (exists b,
        BasePackager.isSource path.posix
          {| BasePackager.keep := Some [".go"; ".json"] |}
          ("/cc/META-INF/statedb" +:+ path.sepString path.posix
           +:+ "idx.v1" +:+ "." +:+ "json") = Return b
        /\ (b = true <-> In ("." +:+ "json") [".go"; ".json"])).
Proof.
  apply (classification_by_file_name path.posix [".go"; ".json"]
           "/cc/META-INF/statedb" "idx.v1" "json"); reflexivity.
Defined.

(** X10: [isSource] depends on the keep list only through its members:
    two keep lists holding the same extensions, in whatever order and
    with whatever repetitions, classify every path alike. *)
Theorem isSource_depends_on_members pf keep1 keep2 p :
  (forall e, In e keep1 <-> In e keep2) ->
  BasePackager.isSource pf {| BasePackager.keep := Some keep1 |} p
  = BasePackager.isSource pf {| BasePackager.keep := Some keep2 |} p.
Proof.
  intros Hsame. unfold BasePackager.isSource. cbn [BasePackager.keep].
  f_equal. apply eq_true_iff_eq. rewrite !indexOf_In. apply Hsame.
Qed.

Lemma isSource_depends_on_members_witness :
  BasePackager.isSource path.posix
    {| BasePackager.keep := Some [".go"; ".c"] |} "/src/a.c"
  = BasePackager.isSource path.posix
      {| BasePackager.keep := Some [".c"; ".go"; ".c"] |} "/src/a.c".
Proof.
  apply (isSource_depends_on_members path.posix
           [".go"; ".c"] [".c"; ".go"; ".c"] "/src/a.c").
  intros e. simpl. tauto.
Defined.

(** ** Logical names: when they tell files apart and when they do not *)

Lemma slash_isPathSeparator pf : path.isPathSeparator pf "/" = true.
Proof. by destruct pf. Qed.

Lemma segments_app_slash pf a b :
  path.segments pf (a +:+ "/" +:+ b) = path.segments pf a ++ path.segments pf b.
Proof.
  unfold path.segments. cbn [String.append].
  rewrite split_on_app by apply slash_isPathSeparator.
  apply List.filter_app.
Qed.

Lemma segments_join_slash pf l :
  forallb (validName pf) l = true ->
  path.segments pf (join_with "/" l) = l.
Proof.
  induction l as [|x l IH]; [done|].
  intros [Hx Hl]%andb_true_iff. destruct l as [|y l].
  - by apply segments_name.
  - rewrite join_with_cons, segments_app_slash, (segments_name _ _ Hx).
    by rewrite (IH Hl).
Qed.

(** X11: below a resolved metadata root, two files on different relative
    paths of valid names without backslashes are given different logical
    names: absent backslashes, distinct files never share a logical
    name. *)
Theorem logical_names_tell_files_apart pf cwd filePath cs1 cs2 st1 st2 :
  isResolved pf filePath = true ->
  forallb (validName pf) cs1 = true -> cs1 <> [] ->
  forallb (validName pf) cs2 = true -> cs2 <> [] ->
  forallb noBackslash cs1 = true ->
  forallb noBackslash cs2 = true ->
  cs1 <> cs2 ->
  name (BasePackager.descriptorOf pf cwd filePath
          {| klaw.path := entryPath pf (path.resolve pf cwd filePath) cs1;
             klaw.stats := st1 |})
  <> name (BasePackager.descriptorOf pf cwd filePath
             {| klaw.path := entryPath pf (path.resolve pf cwd filePath) cs2;
                klaw.stats := st2 |}).
Proof.
  intros _ Hcs1 Hne1 Hcs2 Hne2 Hno1 Hno2 Hdiff.
  rewrite !descriptorOf_name by done. cbn [name].
  rewrite (slashed_names_id pf cs1 Hcs1) by by left.
  rewrite (slashed_names_id pf cs2 Hcs2) by by left.
  intros Heq. cbn [String.append] in Heq.
  assert (Hjoin : join_with "/" cs1 = join_with "/" cs2) by congruence.
  apply (f_equal (path.segments pf)) in Hjoin.
  by rewrite !segments_join_slash in Hjoin.
Qed.

Lemma logical_names_tell_files_apart_witness :
  name (BasePackager.descriptorOf path.win32 "C:\work" "C:\cc\META-INF"
          {| klaw.path :=
               entryPath path.win32
                 (path.resolve path.win32 "C:\work" "C:\cc\META-INF")
                 ["statedb"; "idx1.json"];
             klaw.stats := klaw.StFile |})
  <> name (BasePackager.descriptorOf path.win32 "C:\work" "C:\cc\META-INF"
             {| klaw.path :=
                  entryPath path.win32
                    (path.resolve path.win32 "C:\work" "C:\cc\META-INF")
                    ["statedb"; "idx2.json"];
                klaw.stats := klaw.StFile |}).
Proof.
  apply (logical_names_tell_files_apart path.win32 "C:\work" "C:\cc\META-INF"
           ["statedb"; "idx1.json"] ["statedb"; "idx2.json"]
           klaw.StFile klaw.StFile); try reflexivity; discriminate.
Defined.

Lemma validName_backslash a b :
  validName path.posix a = true ->
  validName path.posix b = true ->
  validName path.posix (a +:+ "\" +:+ b) = true.
Proof.
  intros (Ha & _ & Hfa)%validName_parts (Hb & _ & Hfb)%validName_parts.
  unfold validName. apply andb_true_iff. split; [apply andb_true_iff; split|].
  - apply nonEmpty_spec. by destruct a.
  - unfold plainSegment. destruct a as [|x [|y a]]; [done| |].
    + cbn [String.append]. simpl. by destruct (Ascii.eqb x ".").
    + cbn [String.append]. simpl.
      assert (Hab : String.eqb (a +:+ String "\" b) "" = false)
        by (by destruct a).
      rewrite Hab. by destruct (Ascii.eqb x "."), (Ascii.eqb y ".").
  - unfold sepFree in *. rewrite !chars_app, !forallb_app, Hfa, Hfb. done.
Qed.

(** X12: on a posix host logical names can collide: below a resolved
    metadata root, the file named [a\b] and the file [b] in the directory
    [a] are two different paths that are given one and the same logical
    name, for every pair of valid names [a] and [b]. *)
Theorem posix_backslash_names_collide cwd filePath a b st1 st2 :
  isResolved path.posix filePath = true ->
  validName path.posix a = true ->
  validName path.posix b = true ->
  entryPath path.posix (path.resolve path.posix cwd filePath)
    [a +:+ "\" +:+ b]
  <> entryPath path.posix (path.resolve path.posix cwd filePath) [a; b]
  /\ name (BasePackager.descriptorOf path.posix cwd filePath
             {| klaw.path :=
                  entryPath path.posix (path.resolve path.posix cwd filePath)
                    [a +:+ "\" +:+ b];
                klaw.stats := st1 |})
     = name (BasePackager.descriptorOf path.posix cwd filePath
               {| klaw.path :=
                    entryPath path.posix
                      (path.resolve path.posix cwd filePath) [a; b];
                  klaw.stats := st2 |}).
Proof.
  intros _ Ha Hb.
  pose proof (validName_backslash a b Ha Hb) as Hab.
  assert (H1 : forallb (validName path.posix) [a +:+ "\" +:+ b] = true)
    by (cbn [forallb]; by rewrite Hab).
  assert (H2 : forallb (validName path.posix) [a; b] = true)
    by (cbn [forallb]; by rewrite Ha, Hb).
  split.
  - destruct (resolve_render path.posix cwd filePath)
      as (dev & rs & -> & Hdev & Hrs & _).
    rewrite !entryPath_render by done.
    intros Heq. apply (f_equal (path.segments path.posix)) in Heq.
    rewrite !segments_render in Heq
      by (rewrite forallb_app; by rewrite Hrs).
    apply app_inv_head, app_inv_head in Heq. discriminate.
  - rewrite !descriptorOf_name by done. cbn [name map join_with].
    by rewrite !slashed_app.
Qed.

Lemma posix_backslash_names_collide_witness :
  entryPath path.posix (path.resolve path.posix "/home" "/meta")
    ["w" +:+ "\" +:+ "v.json"]
  <> entryPath path.posix (path.resolve path.posix "/home" "/meta")
       ["w"; "v.json"]
  /\ name (BasePackager.descriptorOf path.posix "/home" "/meta"
             {| klaw.path :=
                  entryPath path.posix
                    (path.resolve path.posix "/home" "/meta")
                    ["w" +:+ "\" +:+ "v.json"];
                klaw.stats := klaw.StFile |})
     = name (BasePackager.descriptorOf path.posix "/home" "/meta"
               {| klaw.path :=
                    entryPath path.posix
                      (path.resolve path.posix "/home" "/meta")
                      ["w"; "v.json"];
                  klaw.stats := klaw.StFile |}).
Proof.
  apply (posix_backslash_names_collide "/home" "/meta" "w" "v.json"
           klaw.StFile klaw.StFile); reflexivity.
Defined.

(** ** Errors of the destination *)

(** X7: when every descriptor is read and the destination is the first
    stream to report an error, the promise is rejected with that error,
    whatever the streams report afterwards, and the destination never
    finishes. *)
Theorem generateTarGz_destination_error_rejects encode gzip disk ds err faults :
  Forall (fun d => canRead disk d = true) ds ->
  BasePackager.promise
    (BasePackager.generateTarGz encode gzip disk ds
       ((stream.destStream, err) :: faults)) = Rejected err
  /\ BasePackager.destination
       (BasePackager.generateTarGz encode gzip disk ds
          ((stream.destStream, err) :: faults)) = None.
Proof.
  intros Hall. split; [|apply generateTarGz_destination_faulty].
  pose proof (packAll_all_read disk ds tar.pack Pending Hall eq_refl) as Hp.
  unfold BasePackager.generateTarGz.
  destruct (packAll_entries disk ds tar.pack Pending eq_refl) as [pr Heq].
  rewrite Heq in Hp |- *. simpl in Hp. subst pr. cbn [fold_left].
  replace (BasePackager.raise (Pending, []) (stream.destStream, err))
    with (@Rejected bool err, @nil JsError) by reflexivity.
  by destruct (raise_rejected faults err []) as [unc' ->].
Qed.

Lemma generateTarGz_destination_error_rejects_witness :
  BasePackager.promise
    (BasePackager.generateTarGz (fun e => [x75; x73]%byte) (fun b => x1f :: b)
       {[ "/cc/b.go" := fileOf ["x"]%byte 7 8 9 ]}
       [{| name := "src/b.go"; fqp := "/cc/b.go" |}]
       ((stream.destStream, SystemError "ENOSPC" "/out/cc.tar.gz")
        :: [(stream.gzipStream, Error "unexpected end of file")]))
  = Rejected (SystemError "ENOSPC" "/out/cc.tar.gz")
  /\ BasePackager.destination
       (BasePackager.generateTarGz (fun e => [x75; x73]%byte)
          (fun b => x1f :: b)
          {[ "/cc/b.go" := fileOf ["x"]%byte 7 8 9 ]}
          [{| name := "src/b.go"; fqp := "/cc/b.go" |}]
          ((stream.destStream, SystemError "ENOSPC" "/out/cc.tar.gz")
           :: [(stream.gzipStream, Error "unexpected end of file")]))
     = None.
Proof.
  apply (generateTarGz_destination_error_rejects (fun e => [x75; x73]%byte)
           (fun b => x1f :: b)
           {[ "/cc/b.go" := fileOf ["x"]%byte 7 8 9 ]}
           [{| name := "src/b.go"; fqp := "/cc/b.go" |}]).
  constructor; [reflexivity | constructor].
Defined.
